(** * fishhook: rebinding of Mach-O indirect symbol pointers

    A shallow embedding of [fishhook.c].  The C code walks the load
    commands of a loaded Mach-O image, finds the lazy and non-lazy symbol
    pointer sections of [__DATA] and [__DATA_CONST], and overwrites the
    pointer slots whose symbol name is registered in a linked list of
    rebinding batches.

    Process memory is split by type, as the code uses it:
    - pointer-sized cells that the code reads and writes (the indirect
      pointer slots and the [replaced] out-locations) are a finite map from
      byte address to value; a cell absent from the map reads as [0];
    - the [__LINKEDIT] tables, which the code only reads, are given by the
      read functions of a [platform] record, together with the answers of the
      operating system ([dladdr], [vm_region]);
    - every store and every [mprotect] call is also appended to a trace, most
      recent first.

    Loops over [uint] counters are modelled on lists: a section is taken to
    hold fewer than [2^32] slots and a header fewer than [2^32] commands, so
    that the counters of the source do not wrap. *)

From Stdlib Require Import ZArith List String Ascii Bool Lia.
From stdpp Require Import base option list gmap strings.

Local Open Scope Z_scope.

(** ** C strings *)

(** A [string] stands for the bytes found from a [char *] onwards; the bytes
    after its end read as NUL.  The C string it holds stops at the first NUL. *)

Definition uchar (c : ascii) : Z := Z.of_N (N_of_ascii c).

(** [p[k]] for a [char *p]. *)
Definition byte_at (p : string) (k : nat) : Z :=
  match String.get k p with
  | Some c => uchar c
  | None => 0
  end.

(** [p + 1] for a [char *p]. *)
Definition str_next (p : string) : string :=
  match p with
  | EmptyString => EmptyString
  | String _ rest => rest
  end.

(** [p + k]. *)
Fixpoint str_offset (k : nat) (p : string) : string :=
  match k with
  | O => p
  | S k' => str_offset k' (str_next p)
  end.

(** The bytes of the C string at [p], terminator excluded. *)
Fixpoint cstr (p : string) : string :=
  match p with
  | EmptyString => EmptyString
  | String c rest => if uchar c =? 0 then EmptyString else String c (cstr rest)
  end.

(** [strcmp]: the difference of the first pair of bytes that differ, [0] when
    both strings end together. *)
Fixpoint strcmp (s1 s2 : string) : Z :=
  match s1, s2 with
  | EmptyString, EmptyString => 0
  | EmptyString, String c2 _ => 0 - uchar c2
  | String c1 _, EmptyString => uchar c1 - 0
  | String c1 r1, String c2 r2 =>
      if uchar c1 =? uchar c2
      then (if uchar c1 =? 0 then 0 else strcmp r1 r2)
      else uchar c1 - uchar c2
  end.

(** ** Constants of the platform headers *)

Definition NULL : Z := 0.

(* <mach-o/loader.h> *)
Definition LC_SEGMENT : Z := 0x1.
Definition LC_SYMTAB : Z := 0x2.
Definition LC_DYSYMTAB : Z := 0xb.
Definition LC_SEGMENT_64 : Z := 0x19.
Definition SECTION_TYPE : Z := 0x000000ff.
Definition S_NON_LAZY_SYMBOL_POINTERS : Z := 0x6.
Definition S_LAZY_SYMBOL_POINTERS : Z := 0x7.
Definition INDIRECT_SYMBOL_LOCAL : Z := 0x80000000.
Definition INDIRECT_SYMBOL_ABS : Z := 0x40000000.
Definition SEG_DATA : string := "__DATA".
Definition SEG_LINKEDIT : string := "__LINKEDIT".
Definition SEG_DATA_CONST : string := "__DATA_CONST".

(* <mach/vm_prot.h>, <sys/mman.h> *)
Definition VM_PROT_READ : Z := 0x01.
Definition VM_PROT_WRITE : Z := 0x02.
Definition VM_PROT_EXECUTE : Z := 0x04.
Definition PROT_READ : Z := 0x01.
Definition PROT_WRITE : Z := 0x02.
Definition PROT_EXEC : Z := 0x04.

(** ** Target architecture ([#ifdef __LP64__]) *)

Inductive arch := ILP32 | LP64.

Definition ptr_bits (a : arch) : Z :=
  match a with ILP32 => 32 | LP64 => 64 end.

(** [sizeof(void * )] *)
Definition sizeof_ptr (a : arch) : Z :=
  match a with ILP32 => 4 | LP64 => 8 end.

(** [sizeof(nlist_t)]; [n_un.n_strx] is its first field. *)
Definition sizeof_nlist (a : arch) : Z :=
  match a with ILP32 => 12 | LP64 => 16 end.

Definition LC_SEGMENT_ARCH_DEPENDENT (a : arch) : Z :=
  match a with ILP32 => LC_SEGMENT | LP64 => LC_SEGMENT_64 end.

(** Arithmetic on [uintptr_t] wraps around. *)
Definition uintptr (a : arch) (z : Z) : Z := z mod 2 ^ ptr_bits a.

(** ** Data model *)

(** Modelled from the spec: [struct rebinding] is declared in [fishhook.h],
    which is not among the sources; the spec gives it as
    [{ const char *name; void *replacement; void **original_slot; }] and the
    code reads the fields [name], [replacement] and [replaced].  [name] is
    the bytes [name] points to; [replaced] is an address, [NULL] when the
    caller gives none. *)
Record rebinding := {
  name : string;
  replacement : Z;
  replaced : Z
}.

(** A node of the registry.  [next] is the tail of the list the node heads;
    [rebindings_nel] is the length of [rebindings].  The node and its vector
    were returned by [malloc] at [entry_ptr] and [rebindings_ptr]. *)
Record rebindings_entry := {
  entry_ptr : Z;
  rebindings_ptr : Z;
  rebindings : list rebinding
}.

(** A [struct rebindings_entry *]: the list of nodes reached through [next],
    the empty list for [NULL]. *)
Abbreviation registry := (list rebindings_entry).

(** The pointer value of a [struct rebindings_entry *]. *)
Definition registry_ptr (r : registry) : Z :=
  match r with
  | [] => NULL
  | e :: _ => entry_ptr e
  end.

Record section_t := {
  sect_segname : string;
  sect_addr : Z;
  sect_size : Z;
  sect_flags : Z;
  sect_reserved1 : Z
}.

Record segment_command_t := {
  seg_segname : string;
  seg_vmaddr : Z;
  seg_fileoff : Z;
  seg_sects : list section_t        (* the [nsects] sections after it *)
}.

Record symtab_command := {
  symoff : Z;
  stroff : Z
}.

Record dysymtab_command := {
  indirectsymoff : Z;
  nindirectsyms : Z
}.

(** A load command, by its [cmd] field: the code reads a command as a
    segment command when [cmd] is [LC_SEGMENT_ARCH_DEPENDENT], as a symtab
    command when it is [LC_SYMTAB], as a dynamic symtab command when it is
    [LC_DYSYMTAB], and looks at no other. *)
Inductive load_command :=
| LcSegment (seg : segment_command_t)
| LcSymtab (st : symtab_command)
| LcDysymtab (dst : dysymtab_command)
| LcOther (cmd : Z).

(** A [struct mach_header *]: its address and the [ncmds] load commands that
    follow the header. *)
Record mach_header_t := {
  header_ptr : Z;
  commands : list load_command
}.

(** What the code reads but never writes. *)
Record platform := {
  load_u32 : Z -> Z;               (* the [uint32_t] at an address *)
  load_chars : Z -> string;        (* the bytes from an address onwards *)
  dladdr : Z -> bool;              (* [dladdr(p, &info) != 0] *)
  vm_region : Z -> option Z        (* [info.protection] on [KERN_SUCCESS] *)
}.

Inductive event :=
| EvStore (p v : Z)
| EvMprotect (p len prot : Z).

Record memory := {
  cells : gmap Z Z;
  trace : list event
}.

Definition load (p : Z) (m : memory) : Z := default 0 (cells m !! p).

Definition store (p v : Z) (m : memory) : memory :=
  {| cells := <[p := v]> (cells m); trace := EvStore p v :: trace m |}.

Definition mprotect (p len prot : Z) (m : memory) : memory :=
  {| cells := cells m; trace := EvMprotect p len prot :: trace m |}.

(** ** The allocator *)

(** [results] lists what the coming calls of [malloc] return, [NULL] for a
    failed call; [live] holds the blocks handed out and not yet freed. *)
Record heap := {
  live : gset Z;
  results : list Z
}.

Definition malloc (h : heap) : Z * heap :=
  match results h with
  | [] => (NULL, h)
  | p :: rest =>
      (p, {| live := if p =? NULL then live h else {[p]} ∪ live h;
             results := rest |})
  end.

(** [free(NULL)] does nothing. *)
Definition free (p : Z) (h : heap) : heap :=
  if p =? NULL then h
  else {| live := live h ∖ {[p]}; results := results h |}.

(** ** [prepend_rebindings] *)

(** Returns the value of [*rebindings_head] after the call along with the
    return code.  [memcpy] copies the first [nel] elements of the caller's
    array, which is taken to hold that many. *)
Definition prepend_rebindings (rebindings_head : registry)
    (rebs : list rebinding) (nel : nat) (h : heap) : Z * registry * heap :=
  let (new_entry, h1) := malloc h in
  if new_entry =? NULL then (-1, rebindings_head, h1)
  else
    let (vec, h2) := malloc h1 in
    if vec =? NULL then (-1, rebindings_head, free new_entry h2)
    else
      (0,
       {| entry_ptr := new_entry; rebindings_ptr := vec;
          rebindings := take nel rebs |} :: rebindings_head,
       h2).

(** ** [get_protection] *)

Definition get_protection (P : platform) (sectionStart : Z) : Z :=
  match vm_region P sectionStart with
  | Some protection => protection
  | None => VM_PROT_READ
  end.

(** ** [perform_rebinding_with_section] *)

(** [symbol_name[0] && symbol_name[1]] *)
Definition symbol_name_longer_than_1 (symbol_name : string) : bool :=
  negb (byte_at symbol_name 0 =? 0) && negb (byte_at symbol_name 1 =? 0).

(** The test of the innermost [if]: the symbol name is longer than one byte
    and, past its first byte, equal to the registered name. *)
Definition name_matches (symbol_name : string) (r : rebinding) : bool :=
  symbol_name_longer_than_1 symbol_name
  && (strcmp (str_next symbol_name) (name r) =? 0).

(** The body of the innermost [if]: capture the old value, overwrite. *)
Definition rebind_binding (binding : Z) (r : rebinding) (m : memory) : memory :=
  let m1 :=
    if negb (replaced r =? NULL) && negb (load binding m =? replacement r)
    then store (replaced r) (load binding m) m
    else m in
  store binding (replacement r) m1.

(** The [for j] loop over one node; [Some] when it left by [goto symbol_loop]. *)
Fixpoint rebind_in_entry (symbol_name : string) (binding : Z)
    (rs : list rebinding) (m : memory) : option memory :=
  match rs with
  | [] => None
  | r :: rest =>
      if name_matches symbol_name r
      then Some (rebind_binding binding r m)
      else rebind_in_entry symbol_name binding rest m
  end.

(** The [while (cur)] loop. *)
Fixpoint rebind_in_registry (symbol_name : string) (binding : Z)
    (cur : registry) (m : memory) : memory :=
  match cur with
  | [] => m
  | e :: next =>
      match rebind_in_entry symbol_name binding (rebindings e) m with
      | Some m' => m'
      | None => rebind_in_registry symbol_name binding next m
      end
  end.

Definition is_sentinel (symtab_index : Z) : bool :=
  (symtab_index =? INDIRECT_SYMBOL_ABS)
  || (symtab_index =? INDIRECT_SYMBOL_LOCAL)
  || (symtab_index =? Z.lor INDIRECT_SYMBOL_LOCAL INDIRECT_SYMBOL_ABS).

(** [indirect_symbol_indices] and [indirect_symbol_bindings] of a section. *)
Definition indirect_symbol_indices (section : section_t) (indirect_symtab : Z) : Z :=
  indirect_symtab + 4 * sect_reserved1 section.

Definition indirect_symbol_bindings (a : arch) (section : section_t) (slide : Z) : Z :=
  uintptr a (slide + sect_addr section).

(** [&indirect_symbol_bindings[i]] *)
Definition binding_ptr (a : arch) (section : section_t) (slide : Z) (i : nat) : Z :=
  indirect_symbol_bindings a section slide + sizeof_ptr a * Z.of_nat i.

(** The symbol table index and the symbol name of slot [i]. *)
Definition symtab_index_of (P : platform) (section : section_t)
    (indirect_symtab : Z) (i : nat) : Z :=
  load_u32 P (indirect_symbol_indices section indirect_symtab + 4 * Z.of_nat i).

Definition symbol_name_of (a : arch) (P : platform) (symtab strtab : Z)
    (symtab_index : Z) : string :=
  let strtab_offset := load_u32 P (symtab + sizeof_nlist a * symtab_index) in
  load_chars P (strtab + strtab_offset).

(** One turn of the [for i] loop. *)
Definition rebind_slot (a : arch) (P : platform) (rebs : registry)
    (section : section_t) (slide symtab strtab indirect_symtab : Z)
    (m : memory) (i : nat) : memory :=
  let symtab_index := symtab_index_of P section indirect_symtab i in
  if is_sentinel symtab_index then m
  else
    let symbol_name := symbol_name_of a P symtab strtab symtab_index in
    rebind_in_registry symbol_name (binding_ptr a section slide i) rebs m.

(** [section->size / sizeof(void * )] *)
Definition slot_count (a : arch) (section : section_t) : nat :=
  Z.to_nat (sect_size section / sizeof_ptr a).

(** The kernel's protection bits as [mprotect] takes them. *)
Definition mprotect_bits (oldProtection : Z) : Z :=
  let protection := 0 in
  let protection :=
    if negb (Z.land oldProtection VM_PROT_READ =? 0)
    then Z.lor protection PROT_READ else protection in
  let protection :=
    if negb (Z.land oldProtection VM_PROT_WRITE =? 0)
    then Z.lor protection PROT_WRITE else protection in
  let protection :=
    if negb (Z.land oldProtection VM_PROT_EXECUTE =? 0)
    then Z.lor protection PROT_EXEC else protection in
  protection.

Definition perform_rebinding_with_section (a : arch) (P : platform)
    (rebs : registry) (section : section_t)
    (slide symtab strtab indirect_symtab : Z) (m : memory) : memory :=
  let isDataConst := strcmp (sect_segname section) SEG_DATA_CONST =? 0 in
  let bindings := indirect_symbol_bindings a section slide in
  let oldProtection :=
    if isDataConst then get_protection P (registry_ptr rebs) else VM_PROT_READ in
  let m1 :=
    if isDataConst
    then mprotect bindings (sect_size section) (Z.lor PROT_READ PROT_WRITE) m
    else m in
  let m2 :=
    fold_left (rebind_slot a P rebs section slide symtab strtab indirect_symtab)
      (seq 0 (slot_count a section)) m1 in
  if isDataConst
  then mprotect bindings (sect_size section) (mprotect_bits oldProtection) m2
  else m2.

(** ** [rebind_symbols_for_image] *)

(** What the first pass over the load commands keeps. *)
Record found_commands := {
  linkedit_segment : option segment_command_t;
  symtab_cmd : option symtab_command;
  dysymtab_cmd : option dysymtab_command
}.

Definition no_commands : found_commands :=
  {| linkedit_segment := None; symtab_cmd := None; dysymtab_cmd := None |}.

(** One turn of the first loop. *)
Definition find_command (found : found_commands) (cur_seg_cmd : load_command)
    : found_commands :=
  match cur_seg_cmd with
  | LcSegment seg =>
      if strcmp (seg_segname seg) SEG_LINKEDIT =? 0
      then {| linkedit_segment := Some seg;
              symtab_cmd := symtab_cmd found;
              dysymtab_cmd := dysymtab_cmd found |}
      else found
  | LcSymtab st =>
      {| linkedit_segment := linkedit_segment found;
         symtab_cmd := Some st;
         dysymtab_cmd := dysymtab_cmd found |}
  | LcDysymtab dst =>
      {| linkedit_segment := linkedit_segment found;
         symtab_cmd := symtab_cmd found;
         dysymtab_cmd := Some dst |}
  | LcOther _ => found
  end.

Definition section_type (sect : section_t) : Z :=
  Z.land (sect_flags sect) SECTION_TYPE.

(** One turn of the [for j] loop over the sections of a segment. *)
Definition rebind_section (a : arch) (P : platform) (rebs : registry)
    (slide symtab strtab indirect_symtab : Z)
    (m : memory) (sect : section_t) : memory :=
  let m1 :=
    if section_type sect =? S_LAZY_SYMBOL_POINTERS
    then perform_rebinding_with_section a P rebs sect slide symtab strtab
           indirect_symtab m
    else m in
  if section_type sect =? S_NON_LAZY_SYMBOL_POINTERS
  then perform_rebinding_with_section a P rebs sect slide symtab strtab
         indirect_symtab m1
  else m1.

(** One turn of the second loop over the load commands. *)
Definition rebind_command (a : arch) (P : platform) (rebs : registry)
    (slide symtab strtab indirect_symtab : Z)
    (m : memory) (cur_seg_cmd : load_command) : memory :=
  match cur_seg_cmd with
  | LcSegment seg =>
      if negb (strcmp (seg_segname seg) SEG_DATA =? 0)
         && negb (strcmp (seg_segname seg) SEG_DATA_CONST =? 0)
      then m
      else fold_left (rebind_section a P rebs slide symtab strtab indirect_symtab)
             (seg_sects seg) m
  | _ => m
  end.

Definition rebind_symbols_for_image (a : arch) (P : platform) (rebs : registry)
    (header : mach_header_t) (slide : Z) (m : memory) : memory :=
  if negb (dladdr P (header_ptr header)) then m
  else
    let found := fold_left find_command (commands header) no_commands in
    match symtab_cmd found, dysymtab_cmd found, linkedit_segment found with
    | Some st, Some dst, Some linkedit =>
        if nindirectsyms dst =? 0 then m
        else
          let linkedit_base :=
            uintptr a (slide + seg_vmaddr linkedit - seg_fileoff linkedit) in
          let symtab := uintptr a (linkedit_base + symoff st) in
          let strtab := uintptr a (linkedit_base + stroff st) in
          let indirect_symtab := uintptr a (linkedit_base + indirectsymoff dst) in
          fold_left (rebind_command a P rebs slide symtab strtab indirect_symtab)
            (commands header) m
    | _, _, _ => m
    end.

(** ** The process and the entry points *)

(** The state the entry points work on: memory, the allocator, the global
    [_rebindings_head], and the dynamic loader's list of loaded images (header
    and slide) with the number of times [_rebind_symbols_for_image] was
    registered as an add-image callback. *)
Record process := {
  mem : memory;
  allocator : heap;
  _rebindings_head : registry;
  images : list (mach_header_t * Z);
  add_image_funcs : nat
}.

Definition _rebind_symbols_for_image (a : arch) (P : platform)
    (s : process) (image : mach_header_t * Z) : process :=
  {| mem := rebind_symbols_for_image a P (_rebindings_head s)
              (fst image) (snd image) (mem s);
     allocator := allocator s;
     _rebindings_head := _rebindings_head s;
     images := images s;
     add_image_funcs := add_image_funcs s |}.

(** [_dyld_register_func_for_add_image(_rebind_symbols_for_image)]: the loader
    records the callback and calls it at once for every loaded image. *)
Definition _dyld_register_func_for_add_image (a : arch) (P : platform)
    (s : process) : process :=
  fold_left (_rebind_symbols_for_image a P) (images s)
    {| mem := mem s;
       allocator := allocator s;
       _rebindings_head := _rebindings_head s;
       images := images s;
       add_image_funcs := S (add_image_funcs s) |}.

(** The loader loads a further image: every registered callback is called
    on it. *)
Definition dyld_add_image (a : arch) (P : platform)
    (image : mach_header_t * Z) (s : process) : process :=
  Nat.iter (add_image_funcs s) (fun s' => _rebind_symbols_for_image a P s' image)
    {| mem := mem s;
       allocator := allocator s;
       _rebindings_head := _rebindings_head s;
       images := images s ++ [image];
       add_image_funcs := add_image_funcs s |}.

Definition rebind_symbols_image (a : arch) (P : platform)
    (header : mach_header_t) (slide : Z)
    (rebs : list rebinding) (rebindings_nel : nat) (s : process) : Z * process :=
  let '(retval, rebindings_head, h1) :=
    prepend_rebindings [] rebs rebindings_nel (allocator s) in
  let m1 := rebind_symbols_for_image a P rebindings_head header slide (mem s) in
  let h2 :=
    match rebindings_head with
    | e :: _ => free (rebindings_ptr e) h1
    | [] => h1
    end in
  let h3 := free (registry_ptr rebindings_head) h2 in
  (retval,
   {| mem := m1;
      allocator := h3;
      _rebindings_head := _rebindings_head s;
      images := images s;
      add_image_funcs := add_image_funcs s |}).

Definition rebind_symbols (a : arch) (P : platform)
    (rebs : list rebinding) (rebindings_nel : nat) (s : process) : Z * process :=
  let '(retval, rebindings_head, h1) :=
    prepend_rebindings (_rebindings_head s) rebs rebindings_nel (allocator s) in
  let s1 :=
    {| mem := mem s;
       allocator := h1;
       _rebindings_head := rebindings_head;
       images := images s;
       add_image_funcs := add_image_funcs s |} in
  if retval <? 0 then (retval, s1)
  else
    match rebindings_head with
    | [_] => (retval, _dyld_register_func_for_add_image a P s1)
    | _ => (retval, fold_left (_rebind_symbols_for_image a P) (images s1) s1)
    end.

(** ** The registry search, as the spec words it *)

(** The rebindings of a registry in the order of the search: batch after
    batch from the head, each batch in array order. *)
Definition search_order (rebs : registry) : list rebinding :=
  concat (map rebindings rebs).

(** The first rebinding in search order whose name matches. *)
Definition first_match (symbol_name : string) (rebs : registry) : option rebinding :=
  List.find (name_matches symbol_name) (search_order rebs).

(** The rebinding slot [i] of a section is rewritten with, if any. *)
Definition slot_rebinding (a : arch) (P : platform) (rebs : registry)
    (section : section_t) (symtab strtab indirect_symtab : Z) (i : nat)
    : option rebinding :=
  let symtab_index := symtab_index_of P section indirect_symtab i in
  if is_sentinel symtab_index then None
  else first_match (symbol_name_of a P symtab strtab symtab_index) rebs.

(** Whether the code captures the old value of a slot for [r]. *)
Definition captures (binding : Z) (r : rebinding) (m : memory) : bool :=
  negb (replaced r =? NULL) && negb (load binding m =? replacement r).

(** ** The image walk, as the spec words it *)

(** The three records the first pass locates, each the last of its kind in
    the load-command stream. *)
Definition linkedit_segments (cmds : list load_command) : list segment_command_t :=
  flat_map (fun lc =>
              match lc with
              | LcSegment seg =>
                  if strcmp (seg_segname seg) SEG_LINKEDIT =? 0 then [seg] else []
              | _ => []
              end) cmds.

Definition symtab_commands (cmds : list load_command) : list symtab_command :=
  flat_map (fun lc => match lc with LcSymtab st => [st] | _ => [] end) cmds.

Definition dysymtab_commands (cmds : list load_command) : list dysymtab_command :=
  flat_map (fun lc => match lc with LcDysymtab dst => [dst] | _ => [] end) cmds.

(** The addresses of the symbol table, the string table and the indirect
    symbol table of an image; [None] when the walk returns without looking
    at any section. *)
Definition image_tables (a : arch) (P : platform) (header : mach_header_t)
    (slide : Z) : option (Z * Z * Z) :=
  if dladdr P (header_ptr header) then
    match last (linkedit_segments (commands header)),
          last (symtab_commands (commands header)),
          last (dysymtab_commands (commands header)) with
    | Some linkedit, Some st, Some dst =>
        if nindirectsyms dst =? 0 then None
        else
          let linkedit_base :=
            uintptr a (slide + seg_vmaddr linkedit - seg_fileoff linkedit) in
          Some (uintptr a (linkedit_base + symoff st),
                uintptr a (linkedit_base + stroff st),
                uintptr a (linkedit_base + indirectsymoff dst))
    | _, _, _ => None
    end
  else None.

Definition is_data_segment (seg : segment_command_t) : bool :=
  (strcmp (seg_segname seg) SEG_DATA =? 0)
  || (strcmp (seg_segname seg) SEG_DATA_CONST =? 0).

Definition is_symbol_pointers (sect : section_t) : bool :=
  (section_type sect =? S_LAZY_SYMBOL_POINTERS)
  || (section_type sect =? S_NON_LAZY_SYMBOL_POINTERS).

(** The sections handed to the Section Rewriter, in load-command order. *)
Definition rewritten_sections (header : mach_header_t) : list section_t :=
  flat_map (fun lc =>
              match lc with
              | LcSegment seg =>
                  if is_data_segment seg
                  then List.filter is_symbol_pointers (seg_sects seg)
                  else []
              | _ => []
              end) (commands header).

(** What a walk over the sections [sects] may do: store into a slot of one
    of them or into an out-location of the registry, and change the
    protection of one that lies in [__DATA_CONST]. *)
Definition walk_event (a : arch) (rebs : registry) (sects : list section_t)
    (slide : Z) (e : event) : Prop :=
  match e with
  | EvStore p v =>
      (exists sect i,
          In sect sects
          /\ (i < slot_count a sect)%nat /\ p = binding_ptr a sect slide i)
      \/ (exists r,
             In r (search_order rebs) /\ replaced r <> NULL /\ p = replaced r)
  | EvMprotect p len prot =>
      exists sect,
        In sect sects
        /\ cstr (sect_segname sect) = cstr SEG_DATA_CONST
        /\ p = indirect_symbol_bindings a sect slide /\ len = sect_size sect
  end.

(** The cell at [p] lies in the address range of a section of an image
    loaded with [slide]. *)
Definition in_section (a : arch) (sect : section_t) (slide p : Z) : Prop :=
  uintptr a (slide + sect_addr sect) <= p
  < uintptr a (slide + sect_addr sect) + sect_size sect.

(** The frame of a walk as the spec words it: the contents of every section
    of the image that is not handed to the Section Rewriter are unchanged. *)
Definition other_sections_unchanged : Prop :=
  forall a P rebs header slide m seg sect p,
    In (LcSegment seg) (commands header) ->
    In sect (seg_sects seg) ->
    ~ In sect (rewritten_sections header) ->
    in_section a sect slide p ->
    load p (rebind_symbols_for_image a P rebs header slide m) = load p m.

(** ** A walk as a list of jobs *)

(** Where cells are concerned, a walk is a list of jobs, one for each slot it
    visits: the address of the slot and the rebinding it is rewritten with,
    if any. *)
Definition job : Type := Z * option rebinding.

Definition apply_job (m : memory) (j : job) : memory :=
  match snd j with
  | Some r => rebind_binding (fst j) r m
  | None => m
  end.

Definition section_jobs (a : arch) (P : platform) (rebs : registry)
    (slide symtab strtab indirect_symtab : Z) (sect : section_t) : list job :=
  map (fun i => (binding_ptr a sect slide i,
                 slot_rebinding a P rebs sect symtab strtab indirect_symtab i))
    (seq 0 (slot_count a sect)).

Definition walk_jobs (a : arch) (P : platform) (rebs : registry)
    (image : mach_header_t * Z) : list job :=
  match image_tables a P (fst image) (snd image) with
  | Some (symtab, strtab, indirect_symtab) =>
      flat_map (section_jobs a P rebs (snd image) symtab strtab indirect_symtab)
        (rewritten_sections (fst image))
  | None => []
  end.

(** Two memories that hold the same value in every cell. *)
Definition same_cells (m1 m2 : memory) : Prop :=
  forall p, load p m1 = load p m2.

(** A slot is listed with one rebinding only. *)
Definition coherent (jobs : list job) : Prop :=
  forall p o o', In (p, o) jobs -> In (p, o') jobs -> o = o'.

(** No out-location of a listed rebinding is itself a listed slot. *)
Definition no_alias (jobs : list job) : Prop :=
  forall p r p' o', In (p, Some r) jobs -> In (p', o') jobs -> replaced r <> p'.

(** ** The second copy of the walker *)

(** The file holds the code twice.  In the second copy the [for j] loop over
    the sections of a segment computes the section type once and tests it
    in a single [if]; the rest of the walker is the same. *)
Definition rebind_section_merged (a : arch) (P : platform) (rebs : registry)
    (slide symtab strtab indirect_symtab : Z)
    (m : memory) (sect : section_t) : memory :=
  let section_type := Z.land (sect_flags sect) SECTION_TYPE in
  if (section_type =? S_LAZY_SYMBOL_POINTERS)
     || (section_type =? S_NON_LAZY_SYMBOL_POINTERS)
  then perform_rebinding_with_section a P rebs sect slide symtab strtab
         indirect_symtab m
  else m.

Definition rebind_command_merged (a : arch) (P : platform) (rebs : registry)
    (slide symtab strtab indirect_symtab : Z)
    (m : memory) (cur_seg_cmd : load_command) : memory :=
  match cur_seg_cmd with
  | LcSegment seg =>
      if negb (strcmp (seg_segname seg) SEG_DATA =? 0)
         && negb (strcmp (seg_segname seg) SEG_DATA_CONST =? 0)
      then m
      else fold_left
             (rebind_section_merged a P rebs slide symtab strtab indirect_symtab)
             (seg_sects seg) m
  | _ => m
  end.

Definition rebind_symbols_for_image_merged (a : arch) (P : platform)
    (rebs : registry) (header : mach_header_t) (slide : Z) (m : memory)
    : memory :=
  if negb (dladdr P (header_ptr header)) then m
  else
    let found := fold_left find_command (commands header) no_commands in
    match symtab_cmd found, dysymtab_cmd found, linkedit_segment found with
    | Some st, Some dst, Some linkedit =>
        if nindirectsyms dst =? 0 then m
        else
          let linkedit_base :=
            uintptr a (slide + seg_vmaddr linkedit - seg_fileoff linkedit) in
          let symtab := uintptr a (linkedit_base + symoff st) in
          let strtab := uintptr a (linkedit_base + stroff st) in
          let indirect_symtab := uintptr a (linkedit_base + indirectsymoff dst) in
          fold_left
            (rebind_command_merged a P rebs slide symtab strtab indirect_symtab)
            (commands header) m
    | _, _, _ => m
    end.

(** ** Callers and invariants of the process *)

(** A caller that registers several batches in turn, each given with its
    count; it collects the return values. *)
Definition rebind_symbols_all (a : arch) (P : platform)
    (batches : list (list rebinding * nat)) (s : process) : list Z * process :=
  fold_left
    (fun acc batch =>
       let '(retval, s') :=
         rebind_symbols a P (fst batch) (snd batch) (snd acc) in
       (fst acc ++ [retval], s'))
    batches ([], s).

(** The add-image callback is registered once, and only once the registry
    holds a node. *)
Definition callback_matches_registry (s : process) : Prop :=
  add_image_funcs s =
  match _rebindings_head s with
  | [] => 0%nat
  | _ :: _ => 1%nat
  end.

(** The nodes of the global registry and their vectors are allocated. *)
Definition registry_allocated (s : process) : Prop :=
  forall e, In e (_rebindings_head s) ->
            entry_ptr e ∈ live (allocator s)
            /\ rebindings_ptr e ∈ live (allocator s).

(** ** A small image

    A 64-bit image loaded with slide [0x1000]: a [__got] section of two
    non-lazy pointers in [__DATA_CONST], a [__la_symbol_ptr] section of two
    lazy pointers and a plain [__data] section in [__DATA], and a string
    table holding [_close] and [_open].  The indirect symbol table maps the
    four pointer slots to [_close], a local symbol, [_open] and [_close]. *)
Module Demo.

Definition slide : Z := 0x1000.

Definition got : section_t :=
  {| sect_segname := "__DATA_CONST"; sect_addr := 0x100004000; sect_size := 16;
     sect_flags := S_NON_LAZY_SYMBOL_POINTERS; sect_reserved1 := 0 |}.

Definition la_symbol_ptr : section_t :=
  {| sect_segname := "__DATA"; sect_addr := 0x100008000; sect_size := 16;
     sect_flags := S_LAZY_SYMBOL_POINTERS; sect_reserved1 := 2 |}.

Definition data : section_t :=
  {| sect_segname := "__DATA"; sect_addr := 0x100008010; sect_size := 16;
     sect_flags := 0; sect_reserved1 := 0 |}.

Definition text_segment : segment_command_t :=
  {| seg_segname := "__TEXT"; seg_vmaddr := 0x100000000; seg_fileoff := 0;
     seg_sects := [] |}.

Definition data_const_segment : segment_command_t :=
  {| seg_segname := "__DATA_CONST"; seg_vmaddr := 0x100004000;
     seg_fileoff := 0x4000; seg_sects := [got] |}.

Definition data_segment : segment_command_t :=
  {| seg_segname := "__DATA"; seg_vmaddr := 0x100008000;
     seg_fileoff := 0x8000; seg_sects := [la_symbol_ptr; data] |}.

Definition linkedit : segment_command_t :=
  {| seg_segname := "__LINKEDIT"; seg_vmaddr := 0x10000c000;
     seg_fileoff := 0xc000; seg_sects := [] |}.

Definition symtab_lc : symtab_command :=
  {| symoff := 0xc000; stroff := 0xc100 |}.

Definition dysymtab_lc : dysymtab_command :=
  {| indirectsymoff := 0xc200; nindirectsyms := 4 |}.

Definition header : mach_header_t :=
  {| header_ptr := 0x100001000;
     commands := [LcSegment text_segment; LcSegment data_const_segment;
                  LcSegment data_segment; LcSegment linkedit;
                  LcSymtab symtab_lc; LcOther 0x22; LcDysymtab dysymtab_lc] |}.

(** An image like the demo image but without the [__DATA_CONST] segment. *)
Definition plain_header : mach_header_t :=
  {| header_ptr := 0x100001000;
     commands := [LcSegment text_segment; LcSegment data_segment;
                  LcSegment linkedit; LcSymtab symtab_lc;
                  LcDysymtab dysymtab_lc] |}.

(** The same image without its [LC_DYSYMTAB] command. *)
Definition stripped_header : mach_header_t :=
  {| header_ptr := 0x100001000;
     commands := [LcSegment data_segment; LcSegment linkedit; LcSymtab symtab_lc] |}.

(** Where the tables of [__LINKEDIT] lie once the image is slid. *)
Definition symtab : Z := 0x10000d000.
Definition strtab : Z := 0x10000d100.
Definition indirect_symtab : Z := 0x10000d200.

Definition strtab_bytes : string :=
  String Ascii.zero
    (String.append "_close" (String Ascii.zero
       (String.append "_open" (String Ascii.zero EmptyString)))).

(** The [uint32_t] cells of the symbol table ([n_strx] of symbols 0 and 1) and
    of the indirect symbol table. *)
Definition u32_cells : list (Z * Z) :=
  [ (symtab, 1); (symtab + 16, 8);
    (indirect_symtab, 0); (indirect_symtab + 4, INDIRECT_SYMBOL_LOCAL);
    (indirect_symtab + 8, 1); (indirect_symtab + 12, 0) ].

(** The registry node of the demo is taken to lie at [0x600000], on a
    readable and writable page. *)
Definition os : platform :=
  {| load_u32 := fun p =>
       match List.find (fun c => fst c =? p) u32_cells with
       | Some c => snd c
       | None => 0
       end;
     load_chars := fun p =>
       if (strtab <=? p) && (p <? strtab + 14)
       then str_offset (Z.to_nat (p - strtab)) strtab_bytes
       else EmptyString;
     dladdr := fun p => p =? 0x100001000;
     vm_region := fun p =>
       if p =? 0x600000 then Some (Z.lor VM_PROT_READ VM_PROT_WRITE) else None |}.

(** The four pointer slots, bound to the library's [close] ([0x7fff0001]),
    a local address, a lazy-binding stub and [close] again; the cell of the
    [__data] section; and the out-locations [orig_close] at [0x200000] and
    [orig_open] at [0x200008]. *)
Definition boot_cells : gmap Z Z :=
  list_to_map
    [ (0x100005000, 0x7fff0001); (0x100005008, 0x100003f00);
      (0x100009000, 0x100002a00); (0x100009008, 0x7fff0001);
      (0x100009010, 42);
      (0x200000, 0); (0x200008, 0) ].

Definition boot : memory := {| cells := boot_cells; trace := [] |}.

Definition my_close : Z := 0x300000.
Definition my_close2 : Z := 0x300100.
Definition my_open : Z := 0x300200.

Definition hook_close : rebinding :=
  {| name := "close"; replacement := my_close; replaced := 0x200000 |}.

Definition hook_close2 : rebinding :=
  {| name := "close"; replacement := my_close2; replaced := NULL |}.

(** A second rebinding of [close], with [orig_open]'s cell as out-location. *)
Definition hook_close3 : rebinding :=
  {| name := "close"; replacement := my_close2; replaced := 0x200008 |}.

Definition hook_open : rebinding :=
  {| name := "open"; replacement := my_open; replaced := 0x200008 |}.

(** A rebinding of [close] whose out-location is a variable of the image,
    the first cell of its [__data] section. *)
Definition hook_close_static : rebinding :=
  {| name := "close"; replacement := my_close; replaced := 0x100009010 |}.

Definition batch_static : rebindings_entry :=
  {| entry_ptr := 0x600080; rebindings_ptr := 0x6000a0;
     rebindings := [hook_close_static] |}.

Definition batch1 : rebindings_entry :=
  {| entry_ptr := 0x600000; rebindings_ptr := 0x600020;
     rebindings := [hook_open; hook_close] |}.

Definition batch2 : rebindings_entry :=
  {| entry_ptr := 0x600040; rebindings_ptr := 0x600060;
     rebindings := [hook_close2] |}.

Definition process0 (results : list Z) : process :=
  {| mem := boot;
     allocator := {| live := ∅; results := results |};
     _rebindings_head := [];
     images := [(header, slide)];
     add_image_funcs := 0 |}.

(** The demo process once [batch1] is registered: its node and vector are
    live and the callback is registered. *)
Definition process1 (results : list Z) : process :=
  {| mem := boot;
     allocator := {| live := {[0x600000; 0x600020]}; results := results |};
     _rebindings_head := [batch1];
     images := [(header, slide)];
     add_image_funcs := 1 |}.

End Demo.

(** * Properties *)

(** ** C strings *)

Lemma uchar_inj c1 c2 : uchar c1 = uchar c2 -> c1 = c2.
Proof.
  unfold uchar. intros H. apply N2Z.inj in H.
  rewrite <- (ascii_N_embedding c1), <- (ascii_N_embedding c2). now rewrite H.
Qed.

Lemma strcmp_cstr s1 s2 : strcmp s1 s2 = 0 <-> cstr s1 = cstr s2.
Proof.
  revert s2. induction s1 as [|c1 r1 IH]; intros [|c2 r2]; simpl.
  - tauto.
  - destruct (Z.eqb_spec (uchar c2) 0) as [E|E]; split; try lia; try discriminate; auto.
  - destruct (Z.eqb_spec (uchar c1) 0) as [E|E]; split; try lia; try discriminate; auto.
  - destruct (Z.eqb_spec (uchar c1) (uchar c2)) as [E|E].
    + apply uchar_inj in E as <-.
      destruct (Z.eqb_spec (uchar c1) 0) as [E0|E0]; [tauto|].
      rewrite IH. split; [intros ->; reflexivity | intros H; now inversion H].
    + split; [lia|]. intros H. exfalso.
      destruct (Z.eqb_spec (uchar c1) 0), (Z.eqb_spec (uchar c2) 0);
        try discriminate; try lia.
      inversion H; subst; lia.
Qed.

Lemma cstr_empty_iff s : cstr s = EmptyString <-> byte_at s 0 = 0.
Proof.
  destruct s as [|c r]; simpl; [tauto|]. unfold byte_at; simpl.
  destruct (Z.eqb_spec (uchar c) 0); split; auto; try discriminate; lia.
Qed.

Lemma byte_at_next s k : byte_at (str_next s) k = byte_at s (S k) .
Proof. destruct s; [destruct k|]; reflexivity. Qed.

(** The test of the code, byte by byte. *)
Lemma name_matches_spec symbol_name r :
  name_matches symbol_name r = true <->
  byte_at symbol_name 0 <> 0 /\ byte_at symbol_name 1 <> 0 /\
  cstr (str_next symbol_name) = cstr (name r).
Proof.
  unfold name_matches, symbol_name_longer_than_1.
  rewrite !andb_true_iff, !negb_true_iff, !Z.eqb_neq, Z.eqb_eq, strcmp_cstr.
  tauto.
Qed.

(** ** The search of the registry *)

Lemma search_order_cons e rebs :
  search_order (e :: rebs) = rebindings e ++ search_order rebs.
Proof. reflexivity. Qed.

Lemma find_first_match {A} (f : A -> bool) pre x post :
  Forall (fun y => f y = false) pre -> f x = true ->
  List.find f (pre ++ x :: post) = Some x.
Proof.
  induction 1 as [|y pre Hy _ IH]; intros Hx; simpl.
  - now rewrite Hx.
  - rewrite Hy. auto.
Qed.

Lemma find_split {A} (f : A -> bool) l x :
  List.find f l = Some x ->
  exists pre post,
    l = pre ++ x :: post /\ Forall (fun y => f y = false) pre /\ f x = true.
Proof.
  induction l as [|y l IH]; simpl; [discriminate|].
  destruct (f y) eqn:Hy.
  - intros [= ->]. exists [], l. repeat split; auto.
  - intros H. destruct (IH H) as (pre & post & -> & Hpre & Hx).
    exists (y :: pre), post. repeat split; auto.
Qed.

Lemma find_none_app {A} (f : A -> bool) l1 l2 :
  List.find f (l1 ++ l2) =
  match List.find f l1 with Some x => Some x | None => List.find f l2 end.
Proof.
  induction l1 as [|y l1 IH]; simpl; [reflexivity|].
  now destruct (f y).
Qed.

(** The [for j] loop finds the first match of the node and rebinds with it. *)
Lemma rebind_in_entry_find symbol_name binding rs m :
  rebind_in_entry symbol_name binding rs m =
  match List.find (name_matches symbol_name) rs with
  | Some r => Some (rebind_binding binding r m)
  | None => None
  end.
Proof.
  induction rs as [|r rs IH]; simpl; [reflexivity|].
  now destruct (name_matches symbol_name r).
Qed.

(** The two nested loops amount to one search in [search_order]. *)
Lemma rebind_in_registry_first_match symbol_name binding rebs m :
  rebind_in_registry symbol_name binding rebs m =
  match first_match symbol_name rebs with
  | Some r => rebind_binding binding r m
  | None => m
  end.
Proof.
  unfold first_match.
  induction rebs as [|e rebs IH]; simpl; [reflexivity|].
  rewrite search_order_cons, find_none_app, rebind_in_entry_find.
  now destruct (List.find (name_matches symbol_name) (rebindings e)).
Qed.

Lemma rebind_slot_spec a P rebs section slide symtab strtab indirect_symtab m i :
  rebind_slot a P rebs section slide symtab strtab indirect_symtab m i =
  match slot_rebinding a P rebs section symtab strtab indirect_symtab i with
  | Some r => rebind_binding (binding_ptr a section slide i) r m
  | None => m
  end.
Proof.
  unfold rebind_slot, slot_rebinding.
  destruct (is_sentinel _); [reflexivity|].
  apply rebind_in_registry_first_match.
Qed.

(** ** Loads and stores *)

Lemma load_store_eq p v m : load p (store p v m) = v.
Proof. unfold load, store; simpl. now rewrite lookup_insert_eq. Qed.

Lemma load_store_ne p q v m : p <> q -> load q (store p v m) = load q m.
Proof. intros H. unfold load, store; simpl. now rewrite lookup_insert_ne. Qed.

Lemma load_store p q v m :
  load q (store p v m) = if decide (p = q) then v else load q m.
Proof.
  destruct (decide (p = q)) as [->|H];
    [apply load_store_eq | now apply load_store_ne].
Qed.

Lemma load_mprotect p q len prot m : load q (mprotect p len prot m) = load q m.
Proof. reflexivity. Qed.

Lemma rebind_binding_capture binding r m :
  captures binding r m = true ->
  rebind_binding binding r m =
  store binding (replacement r) (store (replaced r) (load binding m) m).
Proof. unfold rebind_binding, captures. now intros ->. Qed.

Lemma rebind_binding_no_capture binding r m :
  captures binding r m = false ->
  rebind_binding binding r m = store binding (replacement r) m.
Proof. unfold rebind_binding, captures. now intros ->. Qed.

Lemma load_rebind_binding_eq binding r m :
  load binding (rebind_binding binding r m) = replacement r.
Proof. unfold rebind_binding. apply load_store_eq. Qed.

Lemma load_rebind_binding_ne binding r m p :
  p <> binding -> p <> replaced r ->
  load p (rebind_binding binding r m) = load p m.
Proof.
  intros H1 H2. unfold rebind_binding.
  rewrite load_store_ne by congruence.
  destruct (_ && _); [now rewrite load_store_ne by congruence | reflexivity].
Qed.

(** Rebinding a slot that already holds the replacement changes no cell. *)
Lemma load_rebind_binding_settled binding r m p :
  load binding m = replacement r ->
  load p (rebind_binding binding r m) = load p m.
Proof.
  intros H. rewrite rebind_binding_no_capture.
  - rewrite load_store. destruct (decide _) as [<-|]; congruence.
  - unfold captures. rewrite H, Z.eqb_refl. apply andb_false_r.
Qed.

(** ** The registry and [prepend_rebindings] *)

(** Whether the two allocations of [prepend_rebindings] succeed: the node,
    then, if the node was allocated, the vector. *)
Lemma prepend_rebindings_spec rebindings_head rebs nel h :
  prepend_rebindings rebindings_head rebs nel h =
  match results h with
  | [] => (-1, rebindings_head, h)
  | p :: rest =>
      if p =? NULL
      then (-1, rebindings_head, {| live := live h; results := rest |})
      else
        match rest with
        | [] =>
            (-1, rebindings_head,
             free p {| live := {[p]} ∪ live h; results := [] |})
        | q :: rest' =>
            if q =? NULL
            then (-1, rebindings_head,
                  free p {| live := {[p]} ∪ live h; results := rest' |})
            else (0,
                  {| entry_ptr := p; rebindings_ptr := q;
                     rebindings := take nel rebs |} :: rebindings_head,
                  {| live := {[q]} ∪ ({[p]} ∪ live h); results := rest' |})
        end
  end.
Proof.
  unfold prepend_rebindings, malloc.
  destruct (results h) as [|p rest] eqn:E; simpl; [now destruct h|].
  destruct (p =? NULL) eqn:Ep; simpl; [reflexivity|].
  destruct rest as [|q rest']; simpl; [reflexivity|].
  now destruct (q =? NULL).
Qed.

(** A successful [prepend_rebindings] links one node, holding the first
    [nel] rebindings given, in front of the old head. *)
Lemma prepend_rebindings_ok rebindings_head rebs nel h head' h' :
  prepend_rebindings rebindings_head rebs nel h = (0, head', h') ->
  exists p q,
    head' = {| entry_ptr := p; rebindings_ptr := q;
               rebindings := take nel rebs |} :: rebindings_head
    /\ p <> NULL /\ q <> NULL.
Proof.
  rewrite prepend_rebindings_spec.
  destruct (results h) as [|p [|q rest]]; try discriminate;
    destruct (Z.eqb_spec p NULL); try discriminate;
    destruct (Z.eqb_spec q NULL); try discriminate.
  intros [= <- <-]. eauto.
Qed.

(** ** Searching the registry *)

Lemma first_match_decomposed symbol_name rebs pre r post :
  search_order rebs = pre ++ r :: post ->
  Forall (fun r' => name_matches symbol_name r' = false) pre ->
  name_matches symbol_name r = true ->
  first_match symbol_name rebs = Some r.
Proof. unfold first_match. intros ->. apply find_first_match. Qed.

Lemma trace_rebind_binding binding r m :
  trace (rebind_binding binding r m) =
  EvStore binding (replacement r)
    :: (if captures binding r m
        then [EvStore (replaced r) (load binding m)] else [])
    ++ trace m.
Proof.
  unfold rebind_binding, captures. now destruct (_ && _).
Qed.

(** ** One pass over the slots of a section *)

Lemma sizeof_ptr_pos a : 0 < sizeof_ptr a.
Proof. destruct a; reflexivity. Qed.

Lemma binding_ptr_inj a section slide i j :
  binding_ptr a section slide i = binding_ptr a section slide j -> i = j.
Proof.
  unfold binding_ptr. pose proof (sizeof_ptr_pos a). intros E.
  assert (sizeof_ptr a * Z.of_nat i = sizeof_ptr a * Z.of_nat j) by lia.
  nia.
Qed.

Lemma first_match_In symbol_name rebs r :
  first_match symbol_name rebs = Some r -> In r (search_order rebs).
Proof. unfold first_match. intros H. now apply find_some in H. Qed.

Lemma slot_rebinding_In a P rebs section symtab strtab indirect_symtab i r :
  slot_rebinding a P rebs section symtab strtab indirect_symtab i = Some r ->
  In r (search_order rebs).
Proof.
  unfold slot_rebinding. destruct (is_sentinel _); [discriminate|].
  apply first_match_In.
Qed.

Section Pass.

Variables (a : arch) (P : platform) (rebs : registry) (section : section_t).
Variables (slide symtab strtab indirect_symtab : Z).

Local Abbreviation turn :=
  (rebind_slot a P rebs section slide symtab strtab indirect_symtab).
Local Abbreviation rebinding_of :=
  (slot_rebinding a P rebs section symtab strtab indirect_symtab).
Local Abbreviation slot := (binding_ptr a section slide).

(** A cell that is neither a rebound slot nor the out-location of the
    rebinding of one keeps its value. *)
Lemma load_pass_frame (l : list nat) m p :
  (forall i r, In i l -> rebinding_of i = Some r ->
               p <> slot i /\ p <> replaced r) ->
  load p (fold_left turn l m) = load p m.
Proof.
  revert m. induction l as [|i l IH]; intros m H; simpl; [reflexivity|].
  rewrite IH by (intros; apply H; simpl; auto).
  rewrite rebind_slot_spec.
  destruct (rebinding_of i) as [r|] eqn:E; [|reflexivity].
  destruct (H i r) as [H1 H2]; simpl; auto.
  now apply load_rebind_binding_ne.
Qed.

(** A pass adds stores only, each one to a rebound slot or to the
    out-location of its rebinding. *)
Lemma trace_pass (l : list nat) m :
  exists evs,
    trace (fold_left turn l m) = evs ++ trace m
    /\ Forall (fun e => exists i r, In i l /\ rebinding_of i = Some r /\
                  ((exists v, e = EvStore (replaced r) v /\ replaced r <> NULL)
                   \/ e = EvStore (slot i) (replacement r))) evs.
Proof.
  revert m. induction l as [|i l IH]; intros m; simpl.
  - exists []. split; [reflexivity|constructor].
  - destruct (IH (turn m i)) as (evs & -> & Hevs).
    assert (Hevs' : Forall (fun e => exists j r, In j (i :: l)
                      /\ rebinding_of j = Some r /\
                      ((exists v, e = EvStore (replaced r) v /\ replaced r <> NULL)
                       \/ e = EvStore (slot j) (replacement r))) evs).
    { eapply Forall_impl; [exact Hevs|]. intros e (j & r & Hj & Hr & He).
      exists j, r. simpl; auto. }
    rewrite rebind_slot_spec.
    destruct (rebinding_of i) as [r|] eqn:E.
    + rewrite trace_rebind_binding.
      exists (evs ++ EvStore (slot i) (replacement r)
                :: (if captures (slot i) r m
                    then [EvStore (replaced r) (load (slot i) m)] else [])).
      split; [now rewrite <- app_assoc|].
      apply Forall_app; split; [assumption|].
      constructor; [exists i, r; simpl; auto|].
      unfold captures. destruct (Z.eqb_spec (replaced r) NULL); simpl;
        [constructor|].
      destruct (negb _); constructor; [|constructor].
      exists i, r; simpl. split; [auto|]. split; [assumption|]. left. eauto.
    + exists evs. auto.
Qed.

(** Once every rebound slot of the pass holds its replacement, the pass
    changes no cell and stores into slots only. *)
Lemma pass_settled (l : list nat) m :
  (forall i r, In i l -> rebinding_of i = Some r ->
               load (slot i) m = replacement r) ->
  (forall p, load p (fold_left turn l m) = load p m)
  /\ exists evs,
       trace (fold_left turn l m) = evs ++ trace m
       /\ Forall (fun e => exists i r, In i l /\ rebinding_of i = Some r
                                       /\ e = EvStore (slot i) (replacement r))
            evs.
Proof.
  revert m. induction l as [|i l IH]; intros m H; simpl.
  - split; [reflexivity|]. exists []. split; [reflexivity|constructor].
  - assert (Hturn : forall p, load p (turn m i) = load p m).
    { intros p. rewrite rebind_slot_spec.
      destruct (rebinding_of i) as [r|] eqn:E; [|reflexivity].
      apply load_rebind_binding_settled. apply H; simpl; auto. }
    destruct (IH (turn m i)) as (Hl & evs & -> & Hevs).
    { intros j r Hj Hr. rewrite Hturn. apply H; simpl; auto. }
    split; [intros p; now rewrite Hl|].
    assert (Hevs' : Forall (fun e => exists j r, In j (i :: l)
                              /\ rebinding_of j = Some r
                              /\ e = EvStore (slot j) (replacement r)) evs).
    { eapply Forall_impl; [exact Hevs|]. intros e (j & r & Hj & Hr & He).
      exists j, r. simpl; auto. }
    rewrite rebind_slot_spec.
    destruct (rebinding_of i) as [r|] eqn:E.
    + rewrite rebind_binding_no_capture.
      * exists (evs ++ [EvStore (slot i) (replacement r)]). simpl.
        split; [now rewrite <- app_assoc|].
        apply Forall_app; split; [assumption|].
        constructor; [|constructor]. exists i, r; simpl; auto.
      * unfold captures. rewrite (H i r), Z.eqb_refl by (simpl; auto).
        apply andb_false_r.
    + exists evs. auto.
Qed.

(** After a pass over distinct slots none of which is an out-location, every
    rebound slot holds its replacement. *)
Lemma pass_rebinds (l : list nat) m :
  List.NoDup l ->
  (forall i j r, In i l -> In j l -> rebinding_of j = Some r ->
                 slot i <> replaced r) ->
  forall i r, In i l -> rebinding_of i = Some r ->
              load (slot i) (fold_left turn l m) = replacement r.
Proof.
  revert m. induction l as [|j l IH]; intros m Hnd Halias i r Hi Hr;
    [destruct Hi|].
  inversion Hnd as [|? ? Hj Hnd']; subst. simpl.
  destruct Hi as [->|Hi].
  - rewrite load_pass_frame.
    + rewrite rebind_slot_spec, Hr. apply load_rebind_binding_eq.
    + intros k r' Hk Hr'. split.
      * intros E. apply binding_ptr_inj in E. subst. contradiction.
      * apply (Halias i k r'); simpl; auto.
  - apply IH; auto. intros; eapply Halias; simpl; eauto.
Qed.

End Pass.

(** ** [perform_rebinding_with_section] as a pass between two [mprotect] calls *)

Section Perform.

Variables (a : arch) (P : platform) (rebs : registry) (section : section_t).
Variables (slide symtab strtab indirect_symtab : Z).

Local Abbreviation turn :=
  (rebind_slot a P rebs section slide symtab strtab indirect_symtab).
Local Abbreviation rebinding_of :=
  (slot_rebinding a P rebs section symtab strtab indirect_symtab).
Local Abbreviation slot := (binding_ptr a section slide).
Local Abbreviation perform :=
  (perform_rebinding_with_section a P rebs section slide symtab strtab
     indirect_symtab).
Local Abbreviation slots := (seq 0 (slot_count a section)).
Local Abbreviation bindings := (indirect_symbol_bindings a section slide).

Lemma perform_data_const m :
  strcmp (sect_segname section) SEG_DATA_CONST = 0 ->
  perform m =
  mprotect bindings (sect_size section)
    (mprotect_bits (get_protection P (registry_ptr rebs)))
    (fold_left turn slots
       (mprotect bindings (sect_size section) (Z.lor PROT_READ PROT_WRITE) m)).
Proof.
  intros H. unfold perform_rebinding_with_section. now rewrite H.
Qed.

Lemma perform_other m :
  strcmp (sect_segname section) SEG_DATA_CONST <> 0 ->
  perform m = fold_left turn slots m.
Proof.
  intros H. unfold perform_rebinding_with_section.
  now destruct (Z.eqb_spec (strcmp (sect_segname section) SEG_DATA_CONST) 0).
Qed.

(** The cells after [perform] are those after the pass alone. *)
Lemma load_perform m p :
  exists m0, (forall q, load q m0 = load q m)
             /\ load p (perform m) = load p (fold_left turn slots m0).
Proof.
  destruct (Z.eq_dec (strcmp (sect_segname section) SEG_DATA_CONST) 0) as [H|H].
  - rewrite perform_data_const by assumption.
    exists (mprotect bindings (sect_size section) (Z.lor PROT_READ PROT_WRITE) m).
    split; reflexivity.
  - rewrite perform_other by assumption. exists m. split; reflexivity.
Qed.

Lemma load_perform_frame m p :
  (forall i r, (i < slot_count a section)%nat -> rebinding_of i = Some r ->
               p <> slot i /\ p <> replaced r) ->
  load p (perform m) = load p m.
Proof.
  intros H. destruct (load_perform m p) as (m0 & H0 & ->).
  rewrite load_pass_frame; [apply H0|].
  intros i r Hi. apply H. apply in_seq in Hi. lia.
Qed.

Lemma perform_rebinds m :
  (forall i r, (i < slot_count a section)%nat -> In r (search_order rebs) ->
               replaced r <> slot i) ->
  forall i r, (i < slot_count a section)%nat -> rebinding_of i = Some r ->
              load (slot i) (perform m) = replacement r.
Proof.
  intros Halias i r Hi Hr.
  destruct (load_perform m (slot i)) as (m0 & _ & ->).
  apply pass_rebinds; try assumption.
  - apply seq_NoDup.
  - intros k j r' Hk Hj Hr' E. apply in_seq in Hk.
    apply (Halias k r'); [lia| |auto].
    eapply slot_rebinding_In; eassumption.
  - apply in_seq. lia.
Qed.

Lemma perform_settled m :
  (forall i r, (i < slot_count a section)%nat -> rebinding_of i = Some r ->
               load (slot i) m = replacement r) ->
  forall p, load p (perform m) = load p m.
Proof.
  intros H p. destruct (load_perform m p) as (m0 & H0 & ->).
  rewrite <- H0. apply pass_settled.
  intros i r Hi Hr. rewrite H0. apply H; [|assumption].
  apply in_seq in Hi. lia.
Qed.

(** The events of [perform]: the stores of the pass, between the two
    [mprotect] calls when the section lies in [__DATA_CONST]. *)
Lemma trace_perform m :
  exists evs,
    Forall (fun e => exists i r, In i slots /\ rebinding_of i = Some r /\
              ((exists v, e = EvStore (replaced r) v /\ replaced r <> NULL)
               \/ e = EvStore (slot i) (replacement r))) evs
    /\ trace (perform m) =
       if strcmp (sect_segname section) SEG_DATA_CONST =? 0
       then EvMprotect bindings (sect_size section)
              (mprotect_bits (get_protection P (registry_ptr rebs)))
            :: evs
            ++ EvMprotect bindings (sect_size section)
                 (Z.lor PROT_READ PROT_WRITE)
            :: trace m
       else evs ++ trace m.
Proof.
  destruct (Z.eqb_spec (strcmp (sect_segname section) SEG_DATA_CONST) 0) as [H|H].
  - rewrite perform_data_const by assumption.
    destruct (trace_pass a P rebs section slide symtab strtab indirect_symtab
                slots (mprotect bindings (sect_size section)
                         (Z.lor PROT_READ PROT_WRITE) m)) as (evs & E & Hevs).
    exists evs. split; [assumption|]. simpl. now rewrite E.
  - rewrite perform_other by assumption.
    destruct (trace_pass a P rebs section slide symtab strtab indirect_symtab
                slots m) as (evs & E & Hevs).
    exists evs. auto.
Qed.

(** In a pass over settled slots the stores go to slots only. *)
Lemma trace_perform_settled m :
  (forall i r, (i < slot_count a section)%nat -> rebinding_of i = Some r ->
               load (slot i) m = replacement r) ->
  exists evs,
    trace (perform m) = evs ++ trace m
    /\ Forall (fun e =>
                 match e with
                 | EvStore p v =>
                     exists i, (i < slot_count a section)%nat
                               /\ p = slot i /\ v = load p m
                 | EvMprotect _ _ _ => True
                 end) evs.
Proof.
  intros H.
  assert (Hpass : forall m0, (forall q, load q m0 = load q m) ->
            exists evs,
              trace (fold_left turn slots m0) = evs ++ trace m0
              /\ Forall (fun e =>
                   match e with
                   | EvStore p v =>
                       exists i, (i < slot_count a section)%nat
                                 /\ p = slot i /\ v = load p m
                   | EvMprotect _ _ _ => True
                   end) evs).
  { intros m0 H0.
    destruct (pass_settled a P rebs section slide symtab strtab indirect_symtab
                slots m0) as (_ & evs & E & Hevs).
    { intros i r Hi Hr. rewrite H0. apply H; [|assumption].
      apply in_seq in Hi. lia. }
    exists evs. split; [assumption|].
    eapply Forall_impl; [exact Hevs|].
    intros e (i & r & Hi & Hr & ->). exists i. apply in_seq in Hi.
    split; [lia|]. split; [reflexivity|]. symmetry. now apply H; [lia|]. }
  destruct (Z.eq_dec (strcmp (sect_segname section) SEG_DATA_CONST) 0) as [Hc|Hc].
  - rewrite perform_data_const by assumption.
    destruct (Hpass (mprotect bindings (sect_size section)
                       (Z.lor PROT_READ PROT_WRITE) m)) as (evs & E & Hevs);
      [reflexivity|].
    exists (EvMprotect bindings (sect_size section)
              (mprotect_bits (get_protection P (registry_ptr rebs)))
            :: evs ++ [EvMprotect bindings (sect_size section)
                         (Z.lor PROT_READ PROT_WRITE)]).
    split.
    + simpl. rewrite E. simpl. now rewrite <- app_assoc.
    + constructor; [exact I|]. apply Forall_app. split; [assumption|].
      constructor; [exact I|constructor].
  - rewrite perform_other by assumption. apply Hpass. reflexivity.
Qed.

End Perform.

(** ** C2: capture of the original value *)

(** C2.  For a matched slot (first match [r]): if the slot's value differs
    from the replacement and [replaced r] is not [NULL], the old value is
    stored into [replaced r] and then the slot is overwritten; if the slot
    already holds the replacement, the slot store is the only store and no
    cell changes; so a second turn for the same slot writes no out-location.
    The same holds for a whole section processed twice, when no out-location
    of the registry is itself a slot of the section: the second run changes
    no cell and stores only into slots, each the value it already holds. *)
Theorem C2_capture_original :
  (forall a P rebs section slide symtab strtab indirect_symtab m i pre r post,
      let symtab_index := symtab_index_of P section indirect_symtab i in
      let symbol_name := symbol_name_of a P symtab strtab symtab_index in
      let slot := binding_ptr a section slide i in
      let turn := rebind_slot a P rebs section slide symtab strtab indirect_symtab in
      is_sentinel symtab_index = false ->
      search_order rebs = pre ++ r :: post ->
      Forall (fun r' => name_matches symbol_name r' = false) pre ->
      name_matches symbol_name r = true ->
      (load slot m <> replacement r -> replaced r <> NULL ->
       turn m i = store slot (replacement r) (store (replaced r) (load slot m) m)
       /\ trace (turn m i) =
          EvStore slot (replacement r) :: EvStore (replaced r) (load slot m)
            :: trace m)
      /\ (load slot m = replacement r \/ replaced r = NULL ->
          trace (turn m i) = EvStore slot (replacement r) :: trace m)
      /\ (load slot m = replacement r -> forall p, load p (turn m i) = load p m)
      /\ trace (turn (turn m i) i) = EvStore slot (replacement r) :: trace (turn m i)
      /\ (forall p, load p (turn (turn m i) i) = load p (turn m i)))
  /\
  (forall a P rebs section slide symtab strtab indirect_symtab m,
      let perform :=
        perform_rebinding_with_section a P rebs section slide symtab strtab
          indirect_symtab in
      (forall i r, (i < slot_count a section)%nat -> In r (search_order rebs) ->
                   replaced r <> binding_ptr a section slide i) ->
      (forall p, load p (perform (perform m)) = load p (perform m))
      /\ exists evs,
           trace (perform (perform m)) = evs ++ trace (perform m)
           /\ Forall (fun e =>
                        match e with
                        | EvStore p v =>
                            exists i, (i < slot_count a section)%nat
                                      /\ p = binding_ptr a section slide i
                                      /\ v = load p (perform m)
                        | EvMprotect _ _ _ => True
                        end) evs).
Proof.
  split.
  - intros * Hs Hsplit Hpre Hr.
    assert (E : forall m0, turn m0 i = rebind_binding slot r m0).
    { intros m0. unfold turn. rewrite rebind_slot_spec. unfold slot_rebinding.
      fold symtab_index. rewrite Hs. fold symbol_name.
      now rewrite (first_match_decomposed _ _ _ _ _ Hsplit Hpre Hr). }
    assert (Hsettled : load slot (turn m i) = replacement r).
    { rewrite E. apply load_rebind_binding_eq. }
    repeat split.
    + rewrite E. apply rebind_binding_capture. unfold captures.
      destruct (Z.eqb_spec (replaced r) NULL); [contradiction|].
      destruct (Z.eqb_spec (load slot m) (replacement r)); [contradiction|].
      reflexivity.
    + rewrite E, trace_rebind_binding. unfold captures.
      destruct (Z.eqb_spec (replaced r) NULL); [contradiction|].
      destruct (Z.eqb_spec (load slot m) (replacement r)); [contradiction|].
      reflexivity.
    + intros H0. rewrite E, trace_rebind_binding. unfold captures.
      destruct (Z.eqb_spec (replaced r) NULL); [reflexivity|].
      destruct (Z.eqb_spec (load slot m) (replacement r)); [reflexivity|].
      destruct H0; contradiction.
    + intros H0 p. rewrite E. now apply load_rebind_binding_settled.
    + rewrite (E (turn m i)), trace_rebind_binding. unfold captures.
      rewrite Hsettled, Z.eqb_refl, andb_false_r. reflexivity.
    + intros p. rewrite (E (turn m i)). now apply load_rebind_binding_settled.
  - intros * Halias.
    assert (Hsettled : forall i r, (i < slot_count a section)%nat ->
              slot_rebinding a P rebs section symtab strtab indirect_symtab i
              = Some r ->
              load (binding_ptr a section slide i) (perform m) = replacement r).
    { apply perform_rebinds. assumption. }
    split.
    + apply perform_settled. assumption.
    + apply trace_perform_settled. assumption.
Qed.

(** A worked instance on the demo image: the first turn for the first slot
    of [__got] captures the library's [close] into [orig_close]; and
    processing [__got] twice leaves the cells as after the first run. *)
Lemma C2_capture_original_witness :
  rebind_slot LP64 Demo.os [Demo.batch1] Demo.got Demo.slide Demo.symtab
    Demo.strtab Demo.indirect_symtab Demo.boot 0
  = store 0x100005000 Demo.my_close (store 0x200000 0x7fff0001 Demo.boot)
  /\ load 0x200000
       (perform_rebinding_with_section LP64 Demo.os [Demo.batch1] Demo.got
          Demo.slide Demo.symtab Demo.strtab Demo.indirect_symtab
          (perform_rebinding_with_section LP64 Demo.os [Demo.batch1] Demo.got
             Demo.slide Demo.symtab Demo.strtab Demo.indirect_symtab Demo.boot))
     = 0x7fff0001.
Proof.
  destruct C2_capture_original as [H1 H2]. split.
  - refine (proj1 (proj1
      (H1 LP64 Demo.os [Demo.batch1] Demo.got Demo.slide Demo.symtab
          Demo.strtab Demo.indirect_symtab Demo.boot 0%nat
          [Demo.hook_open] Demo.hook_close [] _ _ _ _) _ _)).
    + vm_compute; reflexivity.
    + reflexivity.
    + repeat constructor.
    + vm_compute; reflexivity.
    + vm_compute; discriminate.
    + vm_compute; discriminate.
  - assert (Halias : forall i r,
              (i < slot_count LP64 Demo.got)%nat ->
              In r (search_order [Demo.batch1]) ->
              replaced r <> binding_ptr LP64 Demo.got Demo.slide i).
    { intros i r Hi Hr. vm_compute in Hi.
      destruct Hr as [<-|[<-|[]]];
        (destruct i as [|[|i]]; [vm_compute; discriminate ..| lia]). }
    rewrite (proj1
      (H2 LP64 Demo.os [Demo.batch1] Demo.got Demo.slide Demo.symtab
          Demo.strtab Demo.indirect_symtab Demo.boot Halias) 0x200000).
    vm_compute; reflexivity.
Defined.

(** ** C3: sentinels *)

Lemma fold_left_pointwise {A C} (f g : A -> C -> A) l x :
  (forall x c, f x c = g x c) -> fold_left f l x = fold_left g l x.
Proof.
  intros H. revert x. induction l as [|c l IH]; intros x; simpl; [reflexivity|].
  now rewrite H, IH.
Qed.

Lemma fold_left_filter {A C} (f : A -> C -> A) (keep : C -> bool) l x :
  fold_left (fun x c => if keep c then f x c else x) l x
  = fold_left f (List.filter keep l) x.
Proof.
  revert x. induction l as [|c l IH]; intros x; simpl; [reflexivity|].
  destruct (keep c); simpl; apply IH.
Qed.

Lemma is_sentinel_spec symtab_index :
  is_sentinel symtab_index = true <->
  symtab_index = INDIRECT_SYMBOL_ABS \/ symtab_index = INDIRECT_SYMBOL_LOCAL
  \/ symtab_index = Z.lor INDIRECT_SYMBOL_LOCAL INDIRECT_SYMBOL_ABS.
Proof.
  unfold is_sentinel. rewrite !orb_true_iff, !Z.eqb_eq. tauto.
Qed.

(** C3.  When the indirect symbol table entry of slot [i] is
    [INDIRECT_SYMBOL_ABS], [INDIRECT_SYMBOL_LOCAL] or their bitwise or, the
    turn of the loop for [i] does nothing at all, whatever the registry: no
    store to the slot, no capture of its value; the pass over the section
    is the pass over the other indices.  Over the whole section the slot
    keeps its value and no store is issued to it, as long as no out-location
    of the registry is the slot itself. *)
Theorem C3_sentinel_skip a P rebs section slide symtab strtab indirect_symtab m i :
  let symtab_index := symtab_index_of P section indirect_symtab i in
  let slot := binding_ptr a section slide i in
  let turn := rebind_slot a P rebs section slide symtab strtab indirect_symtab in
  let perform :=
    perform_rebinding_with_section a P rebs section slide symtab strtab
      indirect_symtab in
  symtab_index = INDIRECT_SYMBOL_ABS \/ symtab_index = INDIRECT_SYMBOL_LOCAL
  \/ symtab_index = Z.lor INDIRECT_SYMBOL_LOCAL INDIRECT_SYMBOL_ABS ->
  turn m i = m
  /\ fold_left turn (seq 0 (slot_count a section)) m
     = fold_left turn
         (List.filter (fun j => negb (Nat.eqb j i)) (seq 0 (slot_count a section)))
         m
  /\ ((forall r, In r (search_order rebs) -> replaced r <> slot) ->
      load slot (perform m) = load slot m
      /\ exists evs,
           trace (perform m) = evs ++ trace m
           /\ forall v, ~ In (EvStore slot v) evs).
Proof.
  intros symtab_index slot turn perform Hs. apply is_sentinel_spec in Hs.
  assert (Hnone : slot_rebinding a P rebs section symtab strtab indirect_symtab i
                  = None).
  { unfold slot_rebinding. fold symtab_index. now rewrite Hs. }
  assert (Hturn : forall m0, turn m0 i = m0).
  { intros m0. unfold turn, rebind_slot. fold symtab_index. now rewrite Hs. }
  split; [apply Hturn|]. split.
  { rewrite <- fold_left_filter. apply fold_left_pointwise. intros m0 j.
    destruct (Nat.eqb_spec j i) as [->|]; simpl; [apply Hturn|reflexivity]. }
  intros Halias.
  assert (Hother : forall j r,
            slot_rebinding a P rebs section symtab strtab indirect_symtab j
            = Some r ->
            slot <> binding_ptr a section slide j /\ slot <> replaced r).
  { intros j r Hr. split.
    - intros E. apply binding_ptr_inj in E. congruence.
    - intros E. apply (Halias r); [|auto].
      eapply slot_rebinding_In; eassumption. }
  split.
  - apply load_perform_frame. intros j r _. apply Hother.
  - destruct (trace_perform a P rebs section slide symtab strtab indirect_symtab m)
      as (evs & Hevs & E).
    assert (Hstores : forall v, ~ In (EvStore slot v) evs).
    { intros v Hin. rewrite List.Forall_forall in Hevs.
      destruct (Hevs _ Hin) as (j & r & _ & Hr & He).
      destruct (Hother j r Hr) as [H1 H2].
      destruct He as [(v' & [= E1 _] & _)|[= E1 _]]; congruence. }
    fold perform in E. rewrite E.
    destruct (strcmp (sect_segname section) SEG_DATA_CONST =? 0).
    + eexists (_ :: evs ++ [_]). split.
      * simpl. rewrite <- app_assoc. reflexivity.
      * intros v [Hin|Hin]; [discriminate|].
        apply in_app_or in Hin as [Hin|[Hin|[]]]; [|discriminate].
        now apply (Hstores v).
    + exists evs. auto.
Qed.

(** A worked instance: the second slot of [__got] in the demo image is bound
    to a local symbol, and processing [__got] leaves it alone. *)
Lemma C3_sentinel_skip_witness :
  rebind_slot LP64 Demo.os [Demo.batch1] Demo.got Demo.slide Demo.symtab
    Demo.strtab Demo.indirect_symtab Demo.boot 1
  = Demo.boot.
Proof.
  refine (proj1
    (C3_sentinel_skip LP64 Demo.os [Demo.batch1] Demo.got Demo.slide
       Demo.symtab Demo.strtab Demo.indirect_symtab Demo.boot 1%nat _)).
  right; left. vm_compute; reflexivity.
Defined.

(** ** C4: the name test *)

Lemma name_matches_empty symbol_name r :
  cstr (name r) = EmptyString -> name_matches symbol_name r = false.
Proof.
  intros H. apply not_true_is_false. rewrite name_matches_spec.
  intros (_ & H1 & H2). rewrite H in H2.
  apply cstr_empty_iff in H2. now rewrite byte_at_next in H2.
Qed.

Lemma first_match_none symbol_name rebs :
  first_match symbol_name rebs = None <->
  forall r, In r (search_order rebs) -> name_matches symbol_name r = false.
Proof.
  unfold first_match. split.
  - intros H r Hr. eapply find_none; eassumption.
  - intros H. destruct (List.find _ _) as [r|] eqn:E; [|reflexivity].
    apply find_some in E as [Hr E]. rewrite H in E by assumption. discriminate.
Qed.

Lemma trace_rebind_binding_grows binding r m :
  trace (rebind_binding binding r m) <> trace m.
Proof.
  rewrite trace_rebind_binding. intros E. apply (f_equal List.length) in E.
  simpl in E. rewrite length_app in E. lia.
Qed.

(** C4.  The test of the code holds of a symbol name [S] and a rebinding
    exactly when the first two bytes of [S] are not NUL and the C string at
    [S + 1] equals the registered name byte for byte.  So [foo] matches the
    stored symbol [_foo], an empty registered name matches nothing, and a
    slot that is not a sentinel is written exactly when some registered
    rebinding passes the test on its symbol name. *)
Theorem C4_name_discipline :
  (forall symbol_name r,
      name_matches symbol_name r = true <->
      byte_at symbol_name 0 <> 0 /\ byte_at symbol_name 1 <> 0
      /\ cstr (str_next symbol_name) = cstr (name r))
  /\ (forall repl out,
         name_matches "_foo"
           {| name := "foo"; replacement := repl; replaced := out |} = true)
  /\ (forall symbol_name r,
         cstr (name r) = EmptyString -> name_matches symbol_name r = false)
  /\ (forall a P rebs section slide symtab strtab indirect_symtab m i,
         let symtab_index := symtab_index_of P section indirect_symtab i in
         let symbol_name := symbol_name_of a P symtab strtab symtab_index in
         let m' :=
           rebind_slot a P rebs section slide symtab strtab indirect_symtab m i in
         is_sentinel symtab_index = false ->
         (trace m' <> trace m <->
          exists r, In r (search_order rebs)
                    /\ name_matches symbol_name r = true)
         /\ ((forall r, In r (search_order rebs) -> cstr (name r) = EmptyString) ->
             m' = m)).
Proof.
  split; [exact name_matches_spec|].
  split; [reflexivity|].
  split; [exact name_matches_empty|].
  intros * Hs.
  assert (E : m' = match first_match symbol_name rebs with
                   | Some r => rebind_binding (binding_ptr a section slide i) r m
                   | None => m
                   end).
  { unfold m'. rewrite rebind_slot_spec. unfold slot_rebinding.
    fold symtab_index. now rewrite Hs. }
  split.
  - rewrite E. destruct (first_match symbol_name rebs) as [r|] eqn:Hf.
    + split; [|intros _; apply trace_rebind_binding_grows].
      intros _. exists r. split; [now apply first_match_In in Hf|].
      unfold first_match in Hf. now apply find_some in Hf.
    + split; [congruence|]. intros (r & Hr & Hm).
      rewrite first_match_none in Hf. rewrite Hf in Hm by assumption.
      discriminate.
  - intros Hempty. rewrite E.
    replace (first_match symbol_name rebs) with (@None rebinding);
      [reflexivity|].
    symmetry. apply first_match_none. intros r Hr.
    apply name_matches_empty. auto.
Qed.

(** A worked instance: the first slot of [__got] in the demo image carries
    [_close], which [hook_close] matches, so the turn for it writes. *)
Lemma C4_name_discipline_witness :
  trace (rebind_slot LP64 Demo.os [Demo.batch1] Demo.got Demo.slide Demo.symtab
           Demo.strtab Demo.indirect_symtab Demo.boot 0)
  <> trace Demo.boot.
Proof.
  apply (proj1 (proj2 (proj2 (proj2 C4_name_discipline))
                 LP64 Demo.os [Demo.batch1] Demo.got Demo.slide Demo.symtab
                 Demo.strtab Demo.indirect_symtab Demo.boot 0%nat eq_refl)).
  exists Demo.hook_close. split; [right; left; reflexivity|].
  vm_compute; reflexivity.
Defined.

(** ** The two passes of [rebind_symbols_for_image] *)

Lemma fold_left_flat_map {A B C} (f : A -> C -> A) (g : B -> list C) l x :
  fold_left (fun x b => fold_left f (g b) x) l x = fold_left f (flat_map g l) x.
Proof.
  revert x. induction l as [|b l IH]; intros x; simpl; [reflexivity|].
  now rewrite fold_left_app, IH.
Qed.

(** The first pass keeps the last command of each kind. *)
Lemma find_commands_spec cmds found :
  fold_left find_command cmds found =
  {| linkedit_segment :=
       match last (linkedit_segments cmds) with
       | Some seg => Some seg
       | None => linkedit_segment found
       end;
     symtab_cmd :=
       match last (symtab_commands cmds) with
       | Some st => Some st
       | None => symtab_cmd found
       end;
     dysymtab_cmd :=
       match last (dysymtab_commands cmds) with
       | Some dst => Some dst
       | None => dysymtab_cmd found
       end |}.
Proof.
  revert found. induction cmds as [|lc cmds IH]; intros found; simpl.
  - now destruct found.
  - rewrite IH. destruct lc as [seg|st|dst|c]; simpl; try reflexivity.
    + destruct (strcmp (seg_segname seg) SEG_LINKEDIT =? 0); simpl;
        [|reflexivity].
      rewrite last_cons. now destruct (last (linkedit_segments cmds)).
    + rewrite last_cons. now destruct (last (symtab_commands cmds)).
    + rewrite last_cons. now destruct (last (dysymtab_commands cmds)).
Qed.

(** The two tests of the [for j] loop amount to one. *)
Lemma rebind_section_spec a P rebs slide symtab strtab indirect_symtab m sect :
  rebind_section a P rebs slide symtab strtab indirect_symtab m sect =
  if is_symbol_pointers sect
  then perform_rebinding_with_section a P rebs sect slide symtab strtab
         indirect_symtab m
  else m.
Proof.
  unfold rebind_section, is_symbol_pointers.
  destruct (Z.eqb_spec (section_type sect) S_LAZY_SYMBOL_POINTERS) as [E|E];
    simpl; [|reflexivity].
  rewrite E. reflexivity.
Qed.

Lemma rebind_command_spec a P rebs slide symtab strtab indirect_symtab m lc :
  rebind_command a P rebs slide symtab strtab indirect_symtab m lc =
  fold_left
    (fun m sect =>
       perform_rebinding_with_section a P rebs sect slide symtab strtab
         indirect_symtab m)
    match lc with
    | LcSegment seg =>
        if is_data_segment seg
        then List.filter is_symbol_pointers (seg_sects seg)
        else []
    | _ => []
    end m.
Proof.
  destruct lc as [seg| | |]; try reflexivity. simpl.
  unfold is_data_segment.
  destruct (strcmp (seg_segname seg) SEG_DATA =? 0),
           (strcmp (seg_segname seg) SEG_DATA_CONST =? 0); simpl;
    try reflexivity;
    rewrite <- fold_left_filter; apply fold_left_pointwise;
    intros; apply rebind_section_spec.
Qed.

(** The walk: nothing when the image is not resolved or its metadata is
    incomplete, else [perform_rebinding_with_section] on each rewritten
    section in load-command order. *)
Lemma rebind_symbols_for_image_spec a P rebs header slide m :
  rebind_symbols_for_image a P rebs header slide m =
  match image_tables a P header slide with
  | Some (symtab, strtab, indirect_symtab) =>
      fold_left
        (fun m sect =>
           perform_rebinding_with_section a P rebs sect slide symtab strtab
             indirect_symtab m)
        (rewritten_sections header) m
  | None => m
  end.
Proof.
  unfold rebind_symbols_for_image, image_tables.
  destruct (dladdr P (header_ptr header)); simpl; [|reflexivity].
  rewrite find_commands_spec; simpl.
  destruct (last (linkedit_segments (commands header))) as [linkedit|],
           (last (symtab_commands (commands header))) as [st|],
           (last (dysymtab_commands (commands header))) as [dst|];
    try reflexivity.
  destruct (nindirectsyms dst =? 0); [reflexivity|].
  unfold rewritten_sections. rewrite <- fold_left_flat_map.
  apply fold_left_pointwise. intros. apply rebind_command_spec.
Qed.

(** ** Frame and effects of a walk *)

Section Walk.

Variables (a : arch) (P : platform) (rebs : registry).
Variables (slide symtab strtab indirect_symtab : Z).

Local Abbreviation perform_on :=
  (fun m sect =>
     perform_rebinding_with_section a P rebs sect slide symtab strtab
       indirect_symtab m).

Lemma load_sections_frame (sects : list section_t) m p :
  (forall sect i, In sect sects -> (i < slot_count a sect)%nat ->
                  p <> binding_ptr a sect slide i) ->
  (forall r, In r (search_order rebs) -> p <> replaced r) ->
  load p (fold_left perform_on sects m) = load p m.
Proof.
  intros Hslots Hout. revert m.
  induction sects as [|sect sects IH]; intros m; simpl; [reflexivity|].
  rewrite IH by (intros; apply Hslots; simpl; auto).
  apply load_perform_frame. intros i r Hi Hr. split.
  - apply Hslots; simpl; auto.
  - apply Hout. eapply slot_rebinding_In; eassumption.
Qed.

Lemma walk_event_mono sects sects' e :
  (forall sect, In sect sects -> In sect sects') ->
  walk_event a rebs sects slide e -> walk_event a rebs sects' slide e.
Proof.
  intros Hsub. destruct e as [p v|p len prot]; simpl.
  - intros [(sect & i & H & H')|H]; [left; exists sect, i; auto|right; auto].
  - intros (sect & H & H'). exists sect. auto.
Qed.

Lemma trace_perform_events sect m :
  exists evs,
    trace (perform_on m sect) = evs ++ trace m
    /\ Forall (walk_event a rebs [sect] slide) evs.
Proof.
  destruct (trace_perform a P rebs sect slide symtab strtab indirect_symtab m)
    as (evs & Hevs & E).
  assert (Hevs' : Forall (walk_event a rebs [sect] slide) evs).
  { eapply Forall_impl; [exact Hevs|].
    intros e (i & r & Hi & Hr & He). apply in_seq in Hi.
    destruct He as [(v & -> & Hnull)| ->]; simpl.
    - right. exists r. split; [|auto].
      eapply slot_rebinding_In; eassumption.
    - left. exists sect, i. split; [auto|]. split; [lia|reflexivity]. }
  rewrite E.
  destruct (Z.eqb_spec (strcmp (sect_segname sect) SEG_DATA_CONST) 0) as [Hc|Hc].
  - apply strcmp_cstr in Hc.
    eexists (_ :: evs ++ [_]). split.
    + simpl. rewrite <- app_assoc. reflexivity.
    + constructor; [exists sect; simpl; auto|].
      apply Forall_app. split; [assumption|].
      constructor; [exists sect; simpl; auto|constructor].
  - exists evs. auto.
Qed.

Lemma trace_sections (sects : list section_t) m :
  exists evs,
    trace (fold_left perform_on sects m) = evs ++ trace m
    /\ Forall (walk_event a rebs sects slide) evs.
Proof.
  revert m. induction sects as [|sect sects IH]; intros m; simpl.
  - exists []. split; [reflexivity|constructor].
  - destruct (IH (perform_on m sect)) as (evs2 & -> & H2).
    destruct (trace_perform_events sect m) as (evs1 & -> & H1).
    exists (evs2 ++ evs1). split; [now rewrite app_assoc|].
    apply Forall_app. split.
    + eapply Forall_impl; [exact H2|]. intros e.
      apply walk_event_mono. simpl; auto.
    + eapply Forall_impl; [exact H1|]. intros e.
      apply walk_event_mono. intros s [->|[]]. simpl; auto.
Qed.

End Walk.

Lemma in_rewritten_sections header sect :
  In sect (rewritten_sections header) <->
  exists seg,
    In (LcSegment seg) (commands header) /\ In sect (seg_sects seg)
    /\ (cstr (seg_segname seg) = "__DATA"%string
        \/ cstr (seg_segname seg) = "__DATA_CONST"%string)
    /\ (section_type sect = S_LAZY_SYMBOL_POINTERS
        \/ section_type sect = S_NON_LAZY_SYMBOL_POINTERS).
Proof.
  unfold rewritten_sections. rewrite in_flat_map. split.
  - intros ([seg| | |] & Hlc & Hin); try (now destruct Hin).
    destruct (is_data_segment seg) eqn:Hseg; [|now destruct Hin].
    apply filter_In in Hin as [Hin Hty].
    exists seg. split; [assumption|]. split; [assumption|].
    unfold is_data_segment in Hseg. unfold is_symbol_pointers in Hty.
    rewrite orb_true_iff, !Z.eqb_eq in Hseg, Hty.
    rewrite !strcmp_cstr in Hseg. auto.
  - intros (seg & Hlc & Hin & Hseg & Hty).
    exists (LcSegment seg). split; [assumption|].
    replace (is_data_segment seg) with true.
    + apply filter_In. split; [assumption|].
      unfold is_symbol_pointers. rewrite orb_true_iff, !Z.eqb_eq. assumption.
    + symmetry. unfold is_data_segment.
      rewrite orb_true_iff, !Z.eqb_eq, !strcmp_cstr. assumption.
Qed.

(** ** C5: which sections are rewritten *)

(** An out-location in a section that is not rewritten: in the demo image
    the out-location of [hook_close_static] is the first cell of the plain
    [__data] section, which is not on the rewritten list; the cell holds
    [42] before the walk and the library's [close] after it. *)
Lemma C5_out_location_in_other_section :
  In (LcSegment Demo.data_segment) (commands Demo.header)
  /\ In Demo.data (seg_sects Demo.data_segment)
  /\ ~ In Demo.data (rewritten_sections Demo.header)
  /\ in_section LP64 Demo.data Demo.slide 0x100009010
  /\ load 0x100009010 Demo.boot = 42
  /\ load 0x100009010
       (rebind_symbols_for_image LP64 Demo.os [Demo.batch_static] Demo.header
          Demo.slide Demo.boot) = 0x7fff0001.
Proof.
  split; [right; right; left; reflexivity|].
  split; [right; left; reflexivity|].
  split; [intros [E|[E|[]]]; discriminate E|].
  split; [unfold in_section; vm_compute; split; [discriminate|reflexivity]|].
  split; vm_compute; reflexivity.
Qed.

(** So the frame as the spec words it does not hold. *)
Lemma other_sections_change : ~ other_sections_unchanged.
Proof.
  intros H.
  specialize (H LP64 Demo.os [Demo.batch_static] Demo.header Demo.slide
                Demo.boot Demo.data_segment Demo.data 0x100009010).
  assert (E : load 0x100009010
                (rebind_symbols_for_image LP64 Demo.os [Demo.batch_static]
                   Demo.header Demo.slide Demo.boot) = 0x7fff0001)
    by (vm_compute; reflexivity).
  rewrite H in E.
  - vm_compute in E. discriminate E.
  - right; right; left. reflexivity.
  - right; left. reflexivity.
  - intros [E'|[E'|[]]]; discriminate E'.
  - unfold in_section. vm_compute. split; [discriminate|reflexivity].
Qed.

(** C5 (amended).  A walk that gets past its checks hands to the Section
    Rewriter the sections of the rewritten list, in load-command order, and
    no other; a section is on that list exactly when it belongs to a segment
    command named [__DATA] or [__DATA_CONST] and its type is
    [S_LAZY_SYMBOL_POINTERS] or [S_NON_LAZY_SYMBOL_POINTERS].  Every store
    and every [mprotect] of the walk falls on a slot or the range of such a
    section, or on an out-location of the registry; every cell that is
    neither such a slot nor such an out-location keeps its value. *)
Theorem C5_section_selectivity a P rebs header slide m :
  let m' := rebind_symbols_for_image a P rebs header slide m in
  (forall sect,
      In sect (rewritten_sections header) <->
      exists seg,
        In (LcSegment seg) (commands header) /\ In sect (seg_sects seg)
        /\ (cstr (seg_segname seg) = "__DATA"%string
            \/ cstr (seg_segname seg) = "__DATA_CONST"%string)
        /\ (section_type sect = S_LAZY_SYMBOL_POINTERS
            \/ section_type sect = S_NON_LAZY_SYMBOL_POINTERS))
  /\ m' = match image_tables a P header slide with
          | Some (symtab, strtab, indirect_symtab) =>
              fold_left
                (fun m sect =>
                   perform_rebinding_with_section a P rebs sect slide symtab
                     strtab indirect_symtab m)
                (rewritten_sections header) m
          | None => m
          end
  /\ (exists evs,
         trace m' = evs ++ trace m
         /\ Forall (walk_event a rebs (rewritten_sections header) slide) evs)
  /\ (forall p,
         (forall sect i,
             In sect (rewritten_sections header) ->
             (i < slot_count a sect)%nat -> p <> binding_ptr a sect slide i) ->
         (forall r, In r (search_order rebs) -> p <> replaced r) ->
         load p m' = load p m).
Proof.
  intros m'. split; [apply in_rewritten_sections|].
  split; [apply rebind_symbols_for_image_spec|].
  unfold m'. rewrite rebind_symbols_for_image_spec.
  destruct (image_tables a P header slide) as [[[symtab strtab] indirect_symtab]|].
  - split; [apply trace_sections|].
    intros p Hslots Hout. now apply load_sections_frame.
  - split; [|reflexivity]. exists []. split; [reflexivity|constructor].
Qed.

(** A worked instance: the cell of the plain [__data] section of the demo
    image is still [42] after the walk. *)
Lemma C5_section_selectivity_witness :
  load 0x100009010
    (rebind_symbols_for_image LP64 Demo.os [Demo.batch2; Demo.batch1]
       Demo.header Demo.slide Demo.boot) = 42.
Proof.
  rewrite (proj2 (proj2 (proj2
    (C5_section_selectivity LP64 Demo.os [Demo.batch2; Demo.batch1]
       Demo.header Demo.slide Demo.boot)))); [reflexivity| |].
  - intros sect i [<-|[<-|[]]] Hi; vm_compute in Hi;
      (destruct i as [|[|i]]; [vm_compute; discriminate ..| lia]).
  - intros r [<-|[<-|[<-|[]]]]; vm_compute; discriminate.
Defined.

(** ** C7: images that are skipped *)

Lemma flat_map_nil {A B} (g : A -> list B) l :
  (forall x, In x l -> g x = []) -> flat_map g l = [].
Proof.
  induction l as [|x l IH]; intros H; simpl; [reflexivity|].
  rewrite H, IH; simpl; auto. intros; apply H; simpl; auto.
Qed.

(** C7.  The walk returns the memory it was given, without a store or an
    [mprotect], when [dladdr] fails on the header, when the load commands
    hold no [__LINKEDIT] segment command, no symtab command or no dynamic
    symtab command, and when the dynamic symtab command (the last one in
    the stream) has no indirect symbols. *)
Theorem C7_incomplete_image_skipped a P rebs header slide m :
  dladdr P (header_ptr header) = false
  \/ (forall seg, In (LcSegment seg) (commands header) ->
                  cstr (seg_segname seg) <> "__LINKEDIT"%string)
  \/ (forall st, ~ In (LcSymtab st) (commands header))
  \/ (forall dst, ~ In (LcDysymtab dst) (commands header))
  \/ (exists pre dst post,
         commands header = pre ++ LcDysymtab dst :: post
         /\ (forall d, ~ In (LcDysymtab d) post)
         /\ nindirectsyms dst = 0) ->
  rebind_symbols_for_image a P rebs header slide m = m.
Proof.
  intros H. rewrite rebind_symbols_for_image_spec.
  replace (image_tables a P header slide) with (@None (Z * Z * Z));
    [reflexivity|].
  symmetry. unfold image_tables.
  destruct (dladdr P (header_ptr header)); [|reflexivity].
  destruct H as [H|[H|[H|[H|(pre & dst & post & E & Hpost & Hn)]]]].
  - discriminate.
  - replace (linkedit_segments (commands header)) with (@nil segment_command_t);
      [reflexivity|].
    symmetry. apply flat_map_nil. intros [seg| | |] Hin; try reflexivity.
    destruct (Z.eqb_spec (strcmp (seg_segname seg) SEG_LINKEDIT) 0) as [Hc|Hc];
      [|reflexivity].
    apply strcmp_cstr in Hc. now apply H in Hin.
  - replace (symtab_commands (commands header)) with (@nil symtab_command);
      [now destruct (last (linkedit_segments (commands header)))|].
    symmetry. apply flat_map_nil. intros [|st| |] Hin; try reflexivity.
    now apply H in Hin.
  - replace (dysymtab_commands (commands header)) with (@nil dysymtab_command);
      [now destruct (last (linkedit_segments (commands header))), (last (symtab_commands (commands header)))|].
    symmetry. apply flat_map_nil. intros [| |dst|] Hin; try reflexivity.
    now apply H in Hin.
  - replace (last (dysymtab_commands (commands header))) with (Some dst).
    + rewrite Hn.
      now destruct (last (linkedit_segments (commands header))), (last (symtab_commands (commands header))).
    + symmetry. rewrite E. unfold dysymtab_commands.
      rewrite flat_map_app. simpl.
      rewrite (flat_map_nil _ post).
      * apply last_snoc.
      * intros [| |d|] Hin; try reflexivity. now apply Hpost in Hin.
Qed.

(** A worked instance: the demo image stripped of its [LC_DYSYMTAB]
    command is left as it is. *)
Lemma C7_incomplete_image_skipped_witness :
  rebind_symbols_for_image LP64 Demo.os [Demo.batch1] Demo.stripped_header
    Demo.slide Demo.boot = Demo.boot.
Proof.
  apply C7_incomplete_image_skipped.
  right; right; right; left.
  intros dst [H|[H|[H|[]]]]; discriminate.
Defined.

(** ** C8: the protection set after the pass *)

Lemma land_pow2_cases x k :
  0 <= k -> Z.land x (2 ^ k) = 0 \/ Z.land x (2 ^ k) = 2 ^ k.
Proof.
  intros Hk. destruct (Z.testbit x k) eqn:B; [right|left];
    apply Z.bits_inj'; intros n Hn;
    rewrite Z.land_spec, ?Z.bits_0, Z.pow2_bits_eqb by lia;
    destruct (Z.eqb_spec k n); subst; rewrite ?B, ?andb_false_r; reflexivity.
Qed.

(** The translation keeps the read, write and execute bits and no other. *)
Lemma mprotect_bits_land oldProtection :
  mprotect_bits oldProtection =
  Z.land oldProtection (Z.lor PROT_READ (Z.lor PROT_WRITE PROT_EXEC)).
Proof.
  rewrite !Z.land_lor_distr_r. unfold mprotect_bits.
  destruct (land_pow2_cases oldProtection 0) as [E0|E0]; [lia|..];
    destruct (land_pow2_cases oldProtection 1) as [E1|E1]; try lia;
    destruct (land_pow2_cases oldProtection 2) as [E2|E2]; try lia;
    change (2 ^ 0) with 1 in E0; change (2 ^ 1) with 2 in E1;
    change (2 ^ 2) with 4 in E2;
    unfold VM_PROT_READ, VM_PROT_WRITE, VM_PROT_EXECUTE, PROT_READ, PROT_WRITE,
      PROT_EXEC;
    rewrite E0, E1, E2; reflexivity.
Qed.

Lemma land_mprotect_bits oldProtection bit :
  Z.land (Z.lor PROT_READ (Z.lor PROT_WRITE PROT_EXEC)) bit = bit ->
  Z.land (mprotect_bits oldProtection) bit = Z.land oldProtection bit.
Proof.
  intros H. now rewrite mprotect_bits_land, <- Z.land_assoc, H.
Qed.

(** C8.  For a section whose segment name is [__DATA_CONST], the last thing
    [perform_rebinding_with_section] does is an [mprotect] of the section's
    slots, [sect_size] bytes long, whose protection holds exactly the read,
    write and execute bits of the protection observed before the pass; the
    observation is [vm_region] at the address of the registry head, taken
    as [VM_PROT_READ] when the query fails.  Between it and the opening
    [mprotect] to read and write there are only stores. *)
Theorem C8_protection_restored a P rebs section slide symtab strtab
    indirect_symtab m :
  let bindings := indirect_symbol_bindings a section slide in
  let observed :=
    match vm_region P (registry_ptr rebs) with
    | Some protection => protection
    | None => VM_PROT_READ
    end in
  cstr (sect_segname section) = "__DATA_CONST"%string ->
  exists applied stores,
    trace (perform_rebinding_with_section a P rebs section slide symtab strtab
             indirect_symtab m)
    = EvMprotect bindings (sect_size section) applied
      :: stores
      ++ EvMprotect bindings (sect_size section) (Z.lor PROT_READ PROT_WRITE)
      :: trace m
    /\ Forall (fun e => exists p v, e = EvStore p v) stores
    /\ applied = Z.land observed (Z.lor PROT_READ (Z.lor PROT_WRITE PROT_EXEC))
    /\ Z.land applied PROT_READ = Z.land observed VM_PROT_READ
    /\ Z.land applied PROT_WRITE = Z.land observed VM_PROT_WRITE
    /\ Z.land applied PROT_EXEC = Z.land observed VM_PROT_EXECUTE.
Proof.
  intros bindings observed Hc.
  assert (Hcmp : (strcmp (sect_segname section) SEG_DATA_CONST =? 0) = true).
  { apply Z.eqb_eq, strcmp_cstr. exact Hc. }
  destruct (trace_perform a P rebs section slide symtab strtab indirect_symtab m)
    as (evs & Hevs & E).
  rewrite Hcmp in E.
  exists (mprotect_bits observed), evs. split; [exact E|]. split.
  - eapply Forall_impl; [exact Hevs|].
    intros e (i & r & _ & _ & [(v & -> & _)| ->]); eauto.
  - split; [apply mprotect_bits_land|].
    repeat split; apply land_mprotect_bits; reflexivity.
Qed.

(** A worked instance: [__got] of the demo image lies in [__DATA_CONST]; with
    the registry node on a readable and writable page, the pass ends by
    setting the section readable and writable. *)
Lemma C8_protection_restored_witness :
  exists rest,
    trace (perform_rebinding_with_section LP64 Demo.os [Demo.batch1] Demo.got
             Demo.slide Demo.symtab Demo.strtab Demo.indirect_symtab Demo.boot)
    = EvMprotect 0x100005000 16 (Z.lor PROT_READ PROT_WRITE) :: rest.
Proof.
  destruct (C8_protection_restored LP64 Demo.os [Demo.batch1] Demo.got
              Demo.slide Demo.symtab Demo.strtab Demo.indirect_symtab Demo.boot)
    as (applied & stores & E & _ & -> & _); [reflexivity|].
  eexists. exact E.
Defined.

(** ** The entry points *)

(** The outcome of [prepend_rebindings] in terms of what its two calls of
    [malloc] return. *)
Lemma prepend_rebindings_cases rebindings_head rebs nel h :
  let node := fst (malloc h) in
  let vector := fst (malloc (snd (malloc h))) in
  let result := prepend_rebindings rebindings_head rebs nel h in
  (node = NULL
   /\ fst (fst result) = -1 /\ snd (fst result) = rebindings_head
   /\ live (snd result) = live h)
  \/ (node <> NULL /\ vector = NULL
      /\ fst (fst result) = -1 /\ snd (fst result) = rebindings_head
      /\ live (snd result) = ({[node]} ∪ live h) ∖ {[node]})
  \/ (node <> NULL /\ vector <> NULL
      /\ fst (fst result) = 0
      /\ snd (fst result) =
         {| entry_ptr := node; rebindings_ptr := vector;
            rebindings := take nel rebs |} :: rebindings_head
      /\ live (snd result) = {[vector]} ∪ ({[node]} ∪ live h)).
Proof.
  rewrite prepend_rebindings_spec. unfold malloc.
  destruct (results h) as [|p rest]; simpl; [left; auto|].
  destruct (Z.eqb_spec p NULL) as [Hp|Hp]; simpl; [left; auto|].
  right. unfold free. destruct (Z.eqb_spec p NULL); [contradiction|].
  destruct rest as [|q rest']; simpl; [left; auto|].
  destruct (Z.eqb_spec q NULL) as [Hq|Hq]; simpl; [left; auto|].
  right. auto.
Qed.

(** Calling the add-image callback on a list of images walks each of them
    with the global registry and touches nothing but memory. *)
Lemma callbacks_spec a P imgs s :
  fold_left (_rebind_symbols_for_image a P) imgs s =
  {| mem :=
       fold_left
         (fun m image =>
            rebind_symbols_for_image a P (_rebindings_head s)
              (fst image) (snd image) m)
         imgs (mem s);
     allocator := allocator s;
     _rebindings_head := _rebindings_head s;
     images := images s;
     add_image_funcs := add_image_funcs s |}.
Proof.
  revert s. induction imgs as [|image imgs IH]; intros s; simpl.
  - now destruct s.
  - now rewrite IH.
Qed.

(** ** C6: the result of [rebind_symbols] *)

(** C6.  [rebind_symbols] returns [0] or [-1]; it returns a negative value
    exactly when [malloc] returns [NULL] for the registry node or for the
    vector of rebindings.  In that case the registry head, the memory with
    its trace of stores and [mprotect] calls, and the loader's state are
    those before the call: no node is linked and no image is walked.
    Otherwise one node holding the first [rebindings_nel] rebindings is
    linked in front of the old head and every loaded image is walked with
    the new head. *)
Theorem C6_rebind_symbols_result a P rebs rebindings_nel s :
  let node := fst (malloc (allocator s)) in
  let vector := fst (malloc (snd (malloc (allocator s)))) in
  let retval := fst (rebind_symbols a P rebs rebindings_nel s) in
  let s' := snd (rebind_symbols a P rebs rebindings_nel s) in
  (retval = 0 \/ retval = -1)
  /\ (retval < 0 <-> node = NULL \/ vector = NULL)
  /\ (retval < 0 ->
      _rebindings_head s' = _rebindings_head s /\ mem s' = mem s
      /\ images s' = images s /\ add_image_funcs s' = add_image_funcs s)
  /\ (retval = 0 ->
      _rebindings_head s' =
        {| entry_ptr := node; rebindings_ptr := vector;
           rebindings := take rebindings_nel rebs |} :: _rebindings_head s
      /\ mem s' =
         fold_left
           (fun m image =>
              rebind_symbols_for_image a P (_rebindings_head s')
                (fst image) (snd image) m)
           (images s) (mem s)
      /\ images s' = images s
      /\ add_image_funcs s' =
         match _rebindings_head s with
         | [] => S (add_image_funcs s)
         | _ :: _ => add_image_funcs s
         end).
Proof.
  intros node vector retval s'. unfold retval, s', rebind_symbols.
  pose proof (prepend_rebindings_cases (_rebindings_head s) rebs rebindings_nel
                (allocator s)) as H.
  simpl in H. fold node vector in H.
  destruct (prepend_rebindings (_rebindings_head s) rebs rebindings_nel
              (allocator s)) as [[r head'] h1].
  simpl in H.
  assert (H' : (node = NULL \/ vector = NULL) /\ r = -1
               /\ head' = _rebindings_head s
               \/ node <> NULL /\ vector <> NULL /\ r = 0
                  /\ head' =
                     {| entry_ptr := node; rebindings_ptr := vector;
                        rebindings := take rebindings_nel rebs |}
                     :: _rebindings_head s).
  { destruct H as [(? & ? & ? & _)|[(? & ? & ? & ? & _)|(? & ? & ? & ? & _)]];
      auto 10. }
  clear H.
  destruct H' as [(Hfail & -> & ->)|(Hn & Hv & -> & ->)]; simpl.
  - split; [right; reflexivity|]. split; [split; [auto|lia]|].
    split; [intros _; repeat split|]. intros E; discriminate E.
  - destruct (_rebindings_head s) as [|e older] eqn:Eh;
      unfold _dyld_register_func_for_add_image; rewrite callbacks_spec; simpl;
      (split; [left; reflexivity|];
       split; [split; [lia|intros [?|?]; contradiction]|];
       split; [lia|]; intros _; repeat split).
Qed.

(** Two worked instances on the demo process: a first registration with
    both allocations served, and one whose second allocation fails. *)
Example rebind_symbols_ok :
  fst (rebind_symbols LP64 Demo.os [Demo.hook_close] 1
         (Demo.process0 [0x600000; 0x600020])) = 0
  /\ load 0x100005000
       (mem (snd (rebind_symbols LP64 Demo.os [Demo.hook_close] 1
                    (Demo.process0 [0x600000; 0x600020])))) = Demo.my_close.
Proof. split; vm_compute; reflexivity. Qed.

Example rebind_symbols_no_memory :
  rebind_symbols LP64 Demo.os [Demo.hook_close] 1 (Demo.process0 [0x600000; 0])
  = (-1, Demo.process0 []).
Proof. vm_compute. reflexivity. Qed.

(** The scenario of two registrations for one symbol: [close] is rebound to
    [my_close], then to [my_close2].  The slot ends with [my_close2], the
    out-location of the second rebinding holds [my_close], and that of the
    first still holds the library's [close]. *)
Example later_registration_chains :
  let s1 := snd (rebind_symbols LP64 Demo.os [Demo.hook_close] 1
                   (Demo.process0 [0x600000; 0x600020; 0x600040; 0x600060])) in
  let s2 := snd (rebind_symbols LP64 Demo.os [Demo.hook_close3] 1 s1) in
  load 0x100005000 (mem s2) = Demo.my_close2
  /\ load 0x200008 (mem s2) = Demo.my_close
  /\ load 0x200000 (mem s2) = 0x7fff0001
  /\ add_image_funcs s2 = 1%nat.
Proof. vm_compute. repeat split. Qed.

(** A worked instance of the failure case: the node is allocated, the vector
    is not; the registry head stays empty. *)
Lemma C6_rebind_symbols_result_witness :
  fst (rebind_symbols LP64 Demo.os [Demo.hook_close] 1
         (Demo.process0 [0x600000; 0])) < 0
  /\ _rebindings_head
       (snd (rebind_symbols LP64 Demo.os [Demo.hook_close] 1
               (Demo.process0 [0x600000; 0]))) = [].
Proof.
  pose proof (C6_rebind_symbols_result LP64 Demo.os [Demo.hook_close] 1
                (Demo.process0 [0x600000; 0])) as (_ & Hneg & Hfail & _).
  assert (H : fst (rebind_symbols LP64 Demo.os [Demo.hook_close] 1
                     (Demo.process0 [0x600000; 0])) < 0).
  { apply Hneg. right. reflexivity. }
  split; [exact H|]. exact (proj1 (Hfail H)).
Defined.

(** ** C9 and C10: [rebind_symbols_image] *)

Lemma free_NULL h : free NULL h = h.
Proof. reflexivity. Qed.

Lemma released_not_live (blocks : gset Z) (p q : Z) :
  (p ∉ (blocks ∖ {[q]}) ∖ {[p]}) /\ (q ∉ (blocks ∖ {[q]}) ∖ {[p]}).
Proof.
  split; intros H; apply elem_of_difference in H as [H1 H2].
  - apply H2, elem_of_singleton. reflexivity.
  - apply elem_of_difference in H1 as [_ H1].
    apply H1, elem_of_singleton. reflexivity.
Qed.

Lemma release_fresh (blocks : gset Z) (p : Z) :
  p ∉ blocks -> ({[p]} ∪ blocks) ∖ {[p]} = blocks.
Proof.
  intros Hp. apply set_eq. intros x.
  rewrite elem_of_difference, elem_of_union, elem_of_singleton. split.
  - intros [[->|H] Hne]; [now contradiction Hne|exact H].
  - intros H. split; [now right|]. intros ->. contradiction.
Qed.

Lemma release_fresh_pair (blocks : gset Z) (p q : Z) :
  p ∉ blocks -> q ∉ blocks ->
  (({[q]} ∪ ({[p]} ∪ blocks)) ∖ {[q]}) ∖ {[p]} = blocks.
Proof.
  intros Hp Hq. apply set_eq. intros x.
  rewrite !elem_of_difference, !elem_of_union, !elem_of_singleton. split.
  - intros [[[->|[->|H]] Hnq] Hnp]; [now contradiction Hnq|now contradiction Hnp|exact H].
  - intros H. repeat split; [now right; right|intros ->; contradiction ..].
Qed.

(** A walk with an empty registry stores nothing. *)
Lemma perform_empty_registry a P section slide symtab strtab indirect_symtab m :
  let perform :=
    perform_rebinding_with_section a P [] section slide symtab strtab
      indirect_symtab in
  cells (perform m) = cells m
  /\ exists evs,
       trace (perform m) = evs ++ trace m
       /\ Forall (fun e => exists p len prot, e = EvMprotect p len prot) evs.
Proof.
  intros perform. unfold perform, perform_rebinding_with_section.
  assert (Hpass : forall l m0,
            fold_left
              (rebind_slot a P [] section slide symtab strtab indirect_symtab)
              l m0 = m0).
  { induction l as [|i l IH]; intros m0; simpl; [reflexivity|].
    rewrite IH. unfold rebind_slot. now destruct (is_sentinel _). }
  rewrite Hpass.
  destruct (strcmp (sect_segname section) SEG_DATA_CONST =? 0); simpl.
  - split; [reflexivity|]. eexists [_; _]. split; [reflexivity|].
    repeat constructor; eauto.
  - split; [reflexivity|]. exists []. split; [reflexivity|constructor].
Qed.

Lemma walk_empty_registry a P header slide m :
  let m' := rebind_symbols_for_image a P [] header slide m in
  cells m' = cells m
  /\ exists evs,
       trace m' = evs ++ trace m
       /\ Forall (fun e => exists p len prot, e = EvMprotect p len prot) evs.
Proof.
  intros m'. unfold m'. clear m'. rewrite rebind_symbols_for_image_spec.
  destruct (image_tables a P header slide) as [[[symtab strtab] indirect_symtab]|].
  - generalize (rewritten_sections header) as sects. intros sects. revert m.
    induction sects as [|sect sects IH]; intros m; simpl.
    + split; [reflexivity|]. exists []. split; [reflexivity|constructor].
    + destruct (IH (perform_rebinding_with_section a P [] sect slide symtab
                      strtab indirect_symtab m)) as (-> & evs2 & -> & H2).
      destruct (perform_empty_registry a P sect slide symtab strtab
                  indirect_symtab m) as (-> & evs1 & -> & H1).
      split; [reflexivity|]. exists (evs2 ++ evs1).
      split; [now rewrite app_assoc|]. now apply Forall_app.
  - split; [reflexivity|]. exists []. split; [reflexivity|constructor].
Qed.

(** C9.  [rebind_symbols_image] walks the one image it is given, once, with
    a registry of its own: a single node holding the first
    [rebindings_nel] rebindings, with no older node behind it (empty when an
    allocation failed).  The global registry head, the loader's list of
    images and its registered callbacks are those before the call, so an
    image loaded later is walked with the global registry only.  On return
    the node and its vector are no longer allocated, and the set of live
    blocks is the one before the call when [malloc] returned blocks that
    were not live. *)
Theorem C9_local_registry_is_transient a P header slide rebs rebindings_nel s :
  let node := fst (malloc (allocator s)) in
  let vector := fst (malloc (snd (malloc (allocator s)))) in
  let s' := snd (rebind_symbols_image a P header slide rebs rebindings_nel s) in
  let transient :=
    if (node =? NULL) || (vector =? NULL) then []
    else [{| entry_ptr := node; rebindings_ptr := vector;
             rebindings := take rebindings_nel rebs |}] in
  mem s' = rebind_symbols_for_image a P transient header slide (mem s)
  /\ _rebindings_head s' = _rebindings_head s
  /\ images s' = images s
  /\ add_image_funcs s' = add_image_funcs s
  /\ (forall e, In e transient ->
                (entry_ptr e ∉ live (allocator s'))
                /\ (rebindings_ptr e ∉ live (allocator s')))
  /\ ((node ∉ live (allocator s)) -> (vector ∉ live (allocator s)) ->
      live (allocator s') = live (allocator s))
  /\ (forall image,
         dyld_add_image a P image s' =
         Nat.iter (add_image_funcs s)
           (fun s0 => _rebind_symbols_for_image a P s0 image)
           {| mem := mem s'; allocator := allocator s';
              _rebindings_head := _rebindings_head s;
              images := images s ++ [image];
              add_image_funcs := add_image_funcs s |}).
Proof.
  intros node vector s' transient.
  unfold s', transient, rebind_symbols_image, dyld_add_image.
  pose proof (prepend_rebindings_cases [] rebs rebindings_nel (allocator s)) as H.
  simpl in H. fold node vector in H.
  destruct (prepend_rebindings [] rebs rebindings_nel (allocator s))
    as [[r head'] h1].
  simpl in H.
  destruct H as [(Hn & -> & -> & Hl)|[(Hn & Hv & -> & -> & Hl)
                                     |(Hn & Hv & -> & -> & Hl)]]; simpl.
  - rewrite Hn. simpl. repeat split; try contradiction.
    intros _ _. exact Hl.
  - rewrite Hv. rewrite orb_true_r. simpl. repeat split; try contradiction.
    intros Hfresh _. rewrite free_NULL, Hl. now apply release_fresh.
  - destruct (Z.eqb_spec node NULL); [contradiction|].
    destruct (Z.eqb_spec vector NULL); [contradiction|]. simpl.
    unfold free. simpl.
    destruct (Z.eqb_spec vector NULL); [contradiction|].
    destruct (Z.eqb_spec node NULL); [contradiction|]. simpl.
    repeat split.
    + destruct H as [<-|[]]. simpl. apply released_not_live.
    + destruct H as [<-|[]]. simpl. apply released_not_live.
    + intros Hfn Hfv. rewrite Hl. now apply release_fresh_pair.
Qed.

(** C10.  The return value of [rebind_symbols_image] is [-1] when [malloc]
    returns [NULL] for the node or for the vector and [0] otherwise,
    whatever the image holds.  When an allocation fails the image is still
    walked, with an empty registry: no cell changes and the walk issues no
    store, only the [mprotect] calls around the sections of
    [__DATA_CONST]. *)
Theorem C10_local_allocation_failure a P header slide rebs rebindings_nel s :
  let node := fst (malloc (allocator s)) in
  let vector := fst (malloc (snd (malloc (allocator s)))) in
  let retval := fst (rebind_symbols_image a P header slide rebs rebindings_nel s) in
  let s' := snd (rebind_symbols_image a P header slide rebs rebindings_nel s) in
  retval = (if (node =? NULL) || (vector =? NULL) then -1 else 0)
  /\ (node = NULL \/ vector = NULL ->
      mem s' = rebind_symbols_for_image a P [] header slide (mem s)
      /\ cells (mem s') = cells (mem s)
      /\ exists evs,
           trace (mem s') = evs ++ trace (mem s)
           /\ Forall (fun e => exists p len prot, e = EvMprotect p len prot) evs).
Proof.
  intros node vector retval s'.
  unfold retval, s', rebind_symbols_image.
  pose proof (prepend_rebindings_cases [] rebs rebindings_nel (allocator s)) as H.
  simpl in H. fold node vector in H.
  destruct (prepend_rebindings [] rebs rebindings_nel (allocator s))
    as [[r head'] h1].
  simpl in H.
  destruct H as [(Hn & -> & -> & _)|[(Hn & Hv & -> & -> & _)
                                    |(Hn & Hv & -> & -> & _)]]; simpl.
  - rewrite Hn. simpl. split; [reflexivity|]. intros _.
    split; [reflexivity|]. apply walk_empty_registry.
  - rewrite Hv, orb_true_r. split; [reflexivity|]. intros _.
    split; [reflexivity|]. apply walk_empty_registry.
  - destruct (Z.eqb_spec node NULL); [contradiction|].
    destruct (Z.eqb_spec vector NULL); [contradiction|]. simpl.
    split; [reflexivity|]. intros [?|?]; contradiction.
Qed.

(** A worked instance: with no memory for the node, [rebind_symbols_image]
    on the demo image returns [-1], changes no cell, and still sets the
    protection of [__got] around the empty pass. *)
Example rebind_symbols_image_no_memory :
  rebind_symbols_image LP64 Demo.os Demo.header Demo.slide [Demo.hook_close] 1
    (Demo.process0 [0])
  = (-1,
     {| mem := {| cells := Demo.boot_cells;
                  trace := [EvMprotect 0x100005000 16 1;
                            EvMprotect 0x100005000 16 3] |};
        allocator := {| live := ∅; results := [] |};
        _rebindings_head := [];
        images := [(Demo.header, Demo.slide)];
        add_image_funcs := 0 |}).
Proof. vm_compute. reflexivity. Qed.

(** A worked instance: a local rebinding on the demo image with both blocks
    granted; on return no block is live and the global registry is empty as
    before. *)
Lemma C9_local_registry_is_transient_witness :
  live (allocator
          (snd (rebind_symbols_image LP64 Demo.os Demo.header Demo.slide
                  [Demo.hook_close] 1 (Demo.process0 [0x600000; 0x600020]))))
  = ∅
  /\ _rebindings_head
       (snd (rebind_symbols_image LP64 Demo.os Demo.header Demo.slide
               [Demo.hook_close] 1 (Demo.process0 [0x600000; 0x600020])))
     = [].
Proof.
  pose proof (C9_local_registry_is_transient LP64 Demo.os Demo.header
                Demo.slide [Demo.hook_close] 1
                (Demo.process0 [0x600000; 0x600020]))
    as (_ & Hhead & _ & _ & _ & Hlive & _).
  split; [|exact Hhead].
  apply Hlive; apply not_elem_of_empty.
Defined.

(** A worked instance: with no memory for the node the call returns [-1]
    and leaves every cell of the demo image as it was. *)
Lemma C10_local_allocation_failure_witness :
  fst (rebind_symbols_image LP64 Demo.os Demo.header Demo.slide
         [Demo.hook_close] 1 (Demo.process0 [0])) = -1
  /\ cells (mem (snd (rebind_symbols_image LP64 Demo.os Demo.header Demo.slide
                        [Demo.hook_close] 1 (Demo.process0 [0]))))
     = Demo.boot_cells.
Proof.
  pose proof (C10_local_allocation_failure LP64 Demo.os Demo.header Demo.slide
                [Demo.hook_close] 1 (Demo.process0 [0])) as (Hret & Hfail).
  split; [exact Hret|].
  destruct Hfail as (_ & Hcells & _); [left; reflexivity|exact Hcells].
Defined.

(** ** Walking twice *)

Lemma same_cells_refl m : same_cells m m.
Proof. intros p. reflexivity. Qed.

Lemma same_cells_trans m1 m2 m3 :
  same_cells m1 m2 -> same_cells m2 m3 -> same_cells m1 m3.
Proof. intros H1 H2 p. now rewrite H1. Qed.

Lemma same_cells_store p v m1 m2 :
  same_cells m1 m2 -> same_cells (store p v m1) (store p v m2).
Proof. intros H q. rewrite !load_store. now destruct (decide _). Qed.

Lemma same_cells_rebind_binding binding r m1 m2 :
  same_cells m1 m2 ->
  same_cells (rebind_binding binding r m1) (rebind_binding binding r m2).
Proof.
  intros H. unfold rebind_binding. rewrite (H binding).
  apply same_cells_store. destruct (_ && _); [|assumption].
  now apply same_cells_store.
Qed.

Lemma same_cells_apply_job j m1 m2 :
  same_cells m1 m2 -> same_cells (apply_job m1 j) (apply_job m2 j).
Proof.
  intros H. unfold apply_job. destruct (snd j); [|assumption].
  now apply same_cells_rebind_binding.
Qed.

Lemma same_cells_jobs jobs m1 m2 :
  same_cells m1 m2 ->
  same_cells (fold_left apply_job jobs m1) (fold_left apply_job jobs m2).
Proof.
  revert m1 m2. induction jobs as [|j jobs IH]; intros m1 m2 H; simpl;
    [assumption|].
  apply IH. now apply same_cells_apply_job.
Qed.

(** A listed slot that holds its replacement keeps it, when every job on the
    slot asks for that replacement and no out-location is the slot. *)
Lemma jobs_keep jobs m p r :
  (forall o, In (p, o) jobs -> o = Some r) ->
  (forall q r', In (q, Some r') jobs -> replaced r' <> p) ->
  load p m = replacement r ->
  load p (fold_left apply_job jobs m) = replacement r.
Proof.
  revert m. induction jobs as [|[q o] jobs IH]; intros m Hsame Hout Hm; simpl;
    [assumption|].
  apply IH.
  - intros o' H. apply Hsame. simpl; auto.
  - intros q' r' H. apply (Hout q'). simpl; auto.
  - unfold apply_job; simpl. destruct o as [r'|]; [|assumption].
    destruct (Z.eq_dec q p) as [->|Hq].
    + assert (E : Some r' = Some r) by (apply Hsame; simpl; auto).
      injection E as ->. apply load_rebind_binding_eq.
    + rewrite load_rebind_binding_ne; [assumption|congruence|].
      intros E. apply (Hout q r'); simpl; auto.
Qed.

(** After the jobs every rebound slot holds its replacement. *)
Lemma jobs_rebind jobs m :
  coherent jobs -> no_alias jobs ->
  forall p r, In (p, Some r) jobs ->
              load p (fold_left apply_job jobs m) = replacement r.
Proof.
  revert m. induction jobs as [|[q o] jobs IH]; intros m Hco Hna p r Hin;
    [destruct Hin|].
  simpl. destruct Hin as [[= -> ->]|Hin].
  - apply jobs_keep.
    + intros o' H. symmetry. apply (Hco p); simpl; auto.
    + intros q r' H E. apply (Hna q r' p (Some r)); simpl; auto.
    + apply load_rebind_binding_eq.
  - apply IH; [| |assumption].
    + intros p' o1 o2 H1 H2. apply (Hco p'); simpl; auto.
    + intros p1 r1 p2 o2 H1 H2. apply (Hna p1 r1 p2 o2); simpl; auto.
Qed.

(** Jobs on slots that hold their replacement change no cell. *)
Lemma jobs_settled jobs m :
  (forall p r, In (p, Some r) jobs -> load p m = replacement r) ->
  same_cells (fold_left apply_job jobs m) m.
Proof.
  revert m. induction jobs as [|[q o] jobs IH]; intros m H; simpl;
    [apply same_cells_refl|].
  assert (Hjob : same_cells (apply_job m (q, o)) m).
  { intros p. unfold apply_job; simpl. destruct o as [r|]; [|reflexivity].
    apply load_rebind_binding_settled. apply H. simpl; auto. }
  eapply same_cells_trans; [|exact Hjob].
  apply IH. intros p r Hin. rewrite Hjob. apply H. simpl; auto.
Qed.

Lemma jobs_idempotent jobs m :
  coherent jobs -> no_alias jobs ->
  same_cells (fold_left apply_job jobs (fold_left apply_job jobs m))
    (fold_left apply_job jobs m).
Proof.
  intros Hco Hna. apply jobs_settled. now apply jobs_rebind.
Qed.

(** The cells after a walk are those after its jobs. *)
Lemma perform_jobs a P rebs sect slide symtab strtab indirect_symtab m :
  same_cells
    (perform_rebinding_with_section a P rebs sect slide symtab strtab
       indirect_symtab m)
    (fold_left apply_job
       (section_jobs a P rebs slide symtab strtab indirect_symtab sect) m).
Proof.
  assert (Hpass : forall l m0,
            fold_left
              (rebind_slot a P rebs sect slide symtab strtab indirect_symtab)
              l m0
            = fold_left apply_job
                (map (fun i =>
                        (binding_ptr a sect slide i,
                         slot_rebinding a P rebs sect symtab strtab
                           indirect_symtab i)) l) m0).
  { induction l as [|i l IH]; intros m0; simpl; [reflexivity|].
    now rewrite IH, rebind_slot_spec. }
  intros p.
  destruct (load_perform a P rebs sect slide symtab strtab indirect_symtab m p)
    as (m0 & H0 & ->).
  rewrite Hpass. apply same_cells_jobs. exact H0.
Qed.

Lemma sections_jobs a P rebs slide symtab strtab indirect_symtab sects m :
  same_cells
    (fold_left
       (fun m sect =>
          perform_rebinding_with_section a P rebs sect slide symtab strtab
            indirect_symtab m) sects m)
    (fold_left apply_job
       (flat_map (section_jobs a P rebs slide symtab strtab indirect_symtab)
          sects) m).
Proof.
  revert m. induction sects as [|sect sects IH]; intros m; simpl;
    [apply same_cells_refl|].
  rewrite fold_left_app.
  eapply same_cells_trans; [apply IH|].
  apply same_cells_jobs, perform_jobs.
Qed.

Lemma walk_jobs_spec a P rebs image m :
  same_cells
    (rebind_symbols_for_image a P rebs (fst image) (snd image) m)
    (fold_left apply_job (walk_jobs a P rebs image) m).
Proof.
  rewrite rebind_symbols_for_image_spec. unfold walk_jobs.
  destruct (image_tables a P (fst image) (snd image))
    as [[[symtab strtab] indirect_symtab]|].
  - apply sections_jobs.
  - apply same_cells_refl.
Qed.

(** Walking the loaded images one after the other. *)
Lemma walks_jobs a P rebs imgs m :
  same_cells
    (fold_left
       (fun m image =>
          rebind_symbols_for_image a P rebs (fst image) (snd image) m) imgs m)
    (fold_left apply_job (flat_map (walk_jobs a P rebs) imgs) m).
Proof.
  revert m. induction imgs as [|image imgs IH]; intros m; simpl;
    [apply same_cells_refl|].
  rewrite fold_left_app.
  eapply same_cells_trans; [apply IH|].
  apply same_cells_jobs, walk_jobs_spec.
Qed.

Lemma same_cells_sym m1 m2 : same_cells m1 m2 -> same_cells m2 m1.
Proof. intros H p. now rewrite H. Qed.

Lemma in_walk_jobs a P rebs image p o :
  In (p, o) (walk_jobs a P rebs image) ->
  exists symtab strtab indirect_symtab sect i,
    image_tables a P (fst image) (snd image)
    = Some (symtab, strtab, indirect_symtab)
    /\ In sect (rewritten_sections (fst image))
    /\ (i < slot_count a sect)%nat
    /\ p = binding_ptr a sect (snd image) i
    /\ o = slot_rebinding a P rebs sect symtab strtab indirect_symtab i.
Proof.
  unfold walk_jobs.
  destruct (image_tables a P (fst image) (snd image))
    as [[[symtab strtab] indirect_symtab]|]; [|intros []].
  intros H. apply in_flat_map in H as (sect & Hsect & H).
  apply in_map_iff in H as (i & [= <- <-] & Hi). apply in_seq in Hi.
  exists symtab, strtab, indirect_symtab, sect, i.
  repeat split; [assumption|lia].
Qed.

(** The jobs of one image are coherent when the slots of its rewritten
    sections do not overlap, and free of aliases when no out-location of the
    registry is one of these slots. *)
Lemma walk_jobs_coherent a P rebs image :
  (forall sect sect' i j,
      In sect (rewritten_sections (fst image)) ->
      In sect' (rewritten_sections (fst image)) ->
      (i < slot_count a sect)%nat -> (j < slot_count a sect')%nat ->
      binding_ptr a sect (snd image) i = binding_ptr a sect' (snd image) j ->
      sect = sect' /\ i = j) ->
  coherent (walk_jobs a P rebs image).
Proof.
  intros H p o o' Ho Ho'.
  apply in_walk_jobs in Ho as (st & str & ist & sect & i & E & Hs & Hi & -> & ->).
  apply in_walk_jobs in Ho'
    as (st' & str' & ist' & sect' & j & E' & Hs' & Hj & Hp & ->).
  rewrite E in E'. injection E' as <- <- <-.
  destruct (H sect sect' i j) as [<- <-]; auto.
Qed.

Lemma walk_jobs_no_alias a P rebs image :
  (forall sect i r,
      In sect (rewritten_sections (fst image)) ->
      (i < slot_count a sect)%nat -> In r (search_order rebs) ->
      replaced r <> binding_ptr a sect (snd image) i) ->
  no_alias (walk_jobs a P rebs image).
Proof.
  intros H p r p' o' Hr Hp'.
  apply in_walk_jobs in Hr as (st & str & ist & sect & i & _ & _ & _ & _ & Hr).
  apply in_walk_jobs in Hp' as (_ & _ & _ & sect' & j & _ & Hs' & Hj & -> & _).
  apply H; [assumption..|].
  eapply slot_rebinding_In. symmetry. exact Hr.
Qed.

(** X1.  Walking an image a second time, as a repeated add-image callback
    does, changes no cell: in particular no out-location receives a
    replacement.  This holds when each slot is visited with one rebinding
    only and no out-location is itself a visited slot. *)
Theorem walk_twice a P rebs image m :
  let walk := rebind_symbols_for_image a P rebs (fst image) (snd image) in
  coherent (walk_jobs a P rebs image) ->
  no_alias (walk_jobs a P rebs image) ->
  same_cells (walk (walk m)) (walk m).
Proof.
  intros walk Hco Hna.
  eapply same_cells_trans; [apply walk_jobs_spec|].
  eapply same_cells_trans;
    [apply same_cells_jobs, walk_jobs_spec|].
  eapply same_cells_trans; [now apply jobs_idempotent|].
  apply same_cells_sym, walk_jobs_spec.
Qed.

(** A worked instance: the demo image walked twice with [batch1]; the
    out-location [orig_close] still holds the library's [close]. *)
Lemma walk_twice_witness :
  load 0x200000
    (rebind_symbols_for_image LP64 Demo.os [Demo.batch1] Demo.header Demo.slide
       (rebind_symbols_for_image LP64 Demo.os [Demo.batch1] Demo.header
          Demo.slide Demo.boot))
  = 0x7fff0001.
Proof.
  rewrite (walk_twice LP64 Demo.os [Demo.batch1] (Demo.header, Demo.slide)
             Demo.boot).
  - vm_compute; reflexivity.
  - apply walk_jobs_coherent.
    intros sect sect' i j [<-|[<-|[]]] [<-|[<-|[]]] Hi Hj; vm_compute in Hi, Hj;
      (destruct i as [|[|i]]; [| |lia]);
      (destruct j as [|[|j]]; [| |lia]);
      vm_compute; intros E; try discriminate E; auto.
  - apply walk_jobs_no_alias.
    intros sect i r [<-|[<-|[]]] Hi [<-|[<-|[]]]; vm_compute in Hi;
      (destruct i as [|[|i]]; [vm_compute; discriminate ..|lia]).
Defined.

(** X3.  After a walk every rebound slot holds the replacement of its first
    match, under the same two conditions. *)
Theorem walk_rebinds a P rebs image m p r :
  coherent (walk_jobs a P rebs image) ->
  no_alias (walk_jobs a P rebs image) ->
  In (p, Some r) (walk_jobs a P rebs image) ->
  load p (rebind_symbols_for_image a P rebs (fst image) (snd image) m)
  = replacement r.
Proof.
  intros Hco Hna Hin. rewrite walk_jobs_spec. now apply jobs_rebind.
Qed.

(** A worked instance: after the walk of the demo image with [batch1] the
    first lazy pointer, bound to [_open], holds [my_open]. *)
Lemma walk_rebinds_witness :
  load 0x100009000
    (rebind_symbols_for_image LP64 Demo.os [Demo.batch1] Demo.header Demo.slide
       Demo.boot)
  = Demo.my_open.
Proof.
  apply (walk_rebinds LP64 Demo.os [Demo.batch1] (Demo.header, Demo.slide)
           Demo.boot 0x100009000 Demo.hook_open).
  - apply walk_jobs_coherent.
    intros sect sect' i j [<-|[<-|[]]] [<-|[<-|[]]] Hi Hj; vm_compute in Hi, Hj;
      (destruct i as [|[|i]]; [| |lia]);
      (destruct j as [|[|j]]; [| |lia]);
      vm_compute; intros E; try discriminate E; auto.
  - apply walk_jobs_no_alias.
    intros sect i r [<-|[<-|[]]] Hi [<-|[<-|[]]]; vm_compute in Hi;
      (destruct i as [|[|i]]; [vm_compute; discriminate ..|lia]).
  - vm_compute. right; right; left. reflexivity.
Defined.

(** ** Registering twice *)

Lemma first_match_repeated symbol_name e e' rebs :
  rebindings e' = rebindings e ->
  first_match symbol_name (e' :: e :: rebs) = first_match symbol_name (e :: rebs).
Proof.
  intros E. unfold first_match. rewrite !search_order_cons, E, !find_none_app.
  now destruct (List.find (name_matches symbol_name) (rebindings e)).
Qed.

Lemma walk_jobs_repeated a P e e' rebs image :
  rebindings e' = rebindings e ->
  walk_jobs a P (e' :: e :: rebs) image = walk_jobs a P (e :: rebs) image.
Proof.
  intros E. unfold walk_jobs.
  destruct (image_tables a P (fst image) (snd image))
    as [[[symtab strtab] indirect_symtab]|]; [|reflexivity].
  apply flat_map_ext. intros sect. unfold section_jobs.
  apply map_ext. intros i. unfold slot_rebinding.
  destruct (is_sentinel _); [reflexivity|].
  now rewrite first_match_repeated.
Qed.

(** What a successful [rebind_symbols] leaves behind. *)
Lemma rebind_symbols_ok_inv a P rebs rebindings_nel s s1 :
  rebind_symbols a P rebs rebindings_nel s = (0, s1) ->
  (exists e, _rebindings_head s1 = e :: _rebindings_head s
             /\ rebindings e = take rebindings_nel rebs)
  /\ images s1 = images s
  /\ mem s1 =
     fold_left
       (fun m image =>
          rebind_symbols_for_image a P (_rebindings_head s1)
            (fst image) (snd image) m)
       (images s) (mem s).
Proof.
  unfold rebind_symbols.
  destruct (prepend_rebindings (_rebindings_head s) rebs rebindings_nel
              (allocator s)) as [[r head'] h1] eqn:E.
  destruct (Z.ltb_spec r 0) as [Hr|Hr]; [intros [= -> _]; lia|].
  assert (E0 : r = 0 -> exists p q,
             head' = {| entry_ptr := p; rebindings_ptr := q;
                        rebindings := take rebindings_nel rebs |}
                     :: _rebindings_head s).
  { intros ->. destruct (prepend_rebindings_ok _ _ _ _ _ _ E) as (p & q & ? & _).
    eauto. }
  destruct head' as [|e [|e' older]];
    unfold _dyld_register_func_for_add_image; rewrite callbacks_spec; simpl;
    intros [= -> <-]; simpl;
    destruct (E0 eq_refl) as (p & q & Eh); try discriminate Eh;
    (split; [eexists; split; [rewrite Eh; reflexivity|reflexivity]|]);
    split; reflexivity.
Qed.

(** X2.  Registering the same rebindings a second time changes no cell of the
    loaded images nor any out-location, when each slot of the loaded images
    is visited with one rebinding only and no out-location is itself a
    visited slot. *)
Theorem register_twice a P rebs rebindings_nel s s1 s2 :
  let jobs := flat_map (walk_jobs a P (_rebindings_head s1)) (images s) in
  rebind_symbols a P rebs rebindings_nel s = (0, s1) ->
  rebind_symbols a P rebs rebindings_nel s1 = (0, s2) ->
  coherent jobs -> no_alias jobs ->
  same_cells (mem s2) (mem s1).
Proof.
  intros jobs H1 H2 Hco Hna.
  apply rebind_symbols_ok_inv in H1 as ((e1 & Eh1 & Er1) & Ei1 & Em1).
  apply rebind_symbols_ok_inv in H2 as ((e2 & Eh2 & Er2) & Ei2 & Em2).
  assert (Ejobs : flat_map (walk_jobs a P (_rebindings_head s2)) (images s1)
                  = jobs).
  { unfold jobs. rewrite Ei1, Eh2, Eh1. apply flat_map_ext. intros image.
    apply walk_jobs_repeated. congruence. }
  assert (S1 : same_cells (mem s1) (fold_left apply_job jobs (mem s))).
  { rewrite Em1. apply walks_jobs. }
  assert (S2 : same_cells (mem s2) (fold_left apply_job jobs (mem s1))).
  { rewrite Em2, <- Ejobs. apply walks_jobs. }
  eapply same_cells_trans; [exact S2|].
  eapply same_cells_trans; [apply same_cells_jobs, S1|].
  eapply same_cells_trans; [now apply jobs_idempotent|].
  now apply same_cells_sym.
Qed.

(** A worked instance: [hook_close] registered twice in the demo process;
    [orig_close] still holds the library's [close] after the second call. *)
Lemma register_twice_witness :
  load 0x200000
    (mem (snd (rebind_symbols LP64 Demo.os [Demo.hook_close] 1
                 (snd (rebind_symbols LP64 Demo.os [Demo.hook_close] 1
                         (Demo.process0
                            [0x600000; 0x600020; 0x600040; 0x600060]))))))
  = 0x7fff0001.
Proof.
  rewrite (register_twice LP64 Demo.os [Demo.hook_close] 1
             (Demo.process0 [0x600000; 0x600020; 0x600040; 0x600060])
             (snd (rebind_symbols LP64 Demo.os [Demo.hook_close] 1
                     (Demo.process0 [0x600000; 0x600020; 0x600040; 0x600060])))
             (snd (rebind_symbols LP64 Demo.os [Demo.hook_close] 1
                     (snd (rebind_symbols LP64 Demo.os [Demo.hook_close] 1
                             (Demo.process0
                                [0x600000; 0x600020; 0x600040; 0x600060])))))).
  - vm_compute; reflexivity.
  - vm_compute; reflexivity.
  - vm_compute; reflexivity.
  - intros p o o' H1 H2. vm_compute in H1, H2.
    destruct H1 as [H1|[H1|[H1|[H1|[]]]]];
      destruct H2 as [H2|[H2|[H2|[H2|[]]]]];
      congruence.
  - intros p r p' o' H1 H2. vm_compute in H1, H2.
    destruct H1 as [H1|[H1|[H1|[H1|[]]]]];
      destruct H2 as [H2|[H2|[H2|[H2|[]]]]];
      try discriminate H1;
      injection H1 as <- <-; injection H2 as <- <-; vm_compute; discriminate.
Defined.

(** ** C1: the first match wins *)

Lemma slot_rebinding_decomposed a P rebs section symtab strtab indirect_symtab
    i pre r post :
  let symbol_name :=
    symbol_name_of a P symtab strtab
      (symtab_index_of P section indirect_symtab i) in
  is_sentinel (symtab_index_of P section indirect_symtab i) = false ->
  search_order rebs = pre ++ r :: post ->
  Forall (fun r' => name_matches symbol_name r' = false) pre ->
  name_matches symbol_name r = true ->
  slot_rebinding a P rebs section symtab strtab indirect_symtab i = Some r.
Proof.
  intros symbol_name Hs Hsplit Hpre Hr. unfold slot_rebinding. rewrite Hs.
  eapply first_match_decomposed; eassumption.
Qed.

(** The store of a rebound slot is among the events of the pass. *)
Lemma pass_stores a P rebs section slide symtab strtab indirect_symtab
    (l : list nat) m i r :
  In i l ->
  slot_rebinding a P rebs section symtab strtab indirect_symtab i = Some r ->
  exists evs,
    trace (fold_left
             (rebind_slot a P rebs section slide symtab strtab indirect_symtab)
             l m) = evs ++ trace m
    /\ In (EvStore (binding_ptr a section slide i) (replacement r)) evs.
Proof.
  revert m. induction l as [|j l IH]; intros m Hi Hr; [destruct Hi|].
  simpl. destruct Hi as [->|Hi].
  - destruct (trace_pass a P rebs section slide symtab strtab indirect_symtab l
                (rebind_slot a P rebs section slide symtab strtab
                   indirect_symtab m i)) as (evs & -> & _).
    rewrite rebind_slot_spec, Hr, trace_rebind_binding.
    exists (evs ++ EvStore (binding_ptr a section slide i) (replacement r)
              :: (if captures (binding_ptr a section slide i) r m
                  then [EvStore (replaced r)
                          (load (binding_ptr a section slide i) m)]
                  else [])).
    split; [now rewrite <- app_assoc|].
    apply in_or_app. right. left. reflexivity.
  - destruct (IH (rebind_slot a P rebs section slide symtab strtab
                    indirect_symtab m j) Hi Hr) as (evs & -> & Hin).
    destruct (trace_pass a P rebs section slide symtab strtab indirect_symtab
                [j] m) as (evs1 & E1 & _).
    simpl in E1. rewrite E1. exists (evs ++ evs1).
    split; [now rewrite app_assoc|]. apply in_or_app. now left.
Qed.

Lemma perform_stores a P rebs section slide symtab strtab indirect_symtab m i r :
  (i < slot_count a section)%nat ->
  slot_rebinding a P rebs section symtab strtab indirect_symtab i = Some r ->
  exists evs,
    trace (perform_rebinding_with_section a P rebs section slide symtab strtab
             indirect_symtab m) = evs ++ trace m
    /\ In (EvStore (binding_ptr a section slide i) (replacement r)) evs.
Proof.
  intros Hi Hr.
  assert (Hin : In i (seq 0 (slot_count a section))) by (apply in_seq; lia).
  destruct (Z.eq_dec (strcmp (sect_segname section) SEG_DATA_CONST) 0) as [Hc|Hc].
  - rewrite perform_data_const by assumption.
    destruct (pass_stores a P rebs section slide symtab strtab indirect_symtab
                (seq 0 (slot_count a section))
                (mprotect (indirect_symbol_bindings a section slide)
                   (sect_size section) (Z.lor PROT_READ PROT_WRITE) m)
                i r Hin Hr) as (evs & E & Hev).
    exists (EvMprotect (indirect_symbol_bindings a section slide)
              (sect_size section)
              (mprotect_bits (get_protection P (registry_ptr rebs)))
            :: evs ++ [EvMprotect (indirect_symbol_bindings a section slide)
                         (sect_size section) (Z.lor PROT_READ PROT_WRITE)]).
    split.
    + simpl. rewrite E. simpl. now rewrite <- app_assoc.
    + right. apply in_or_app. now left.
  - rewrite perform_other by assumption. now apply pass_stores.
Qed.

Lemma walk_jobs_complete a P rebs image symtab strtab indirect_symtab sect i :
  image_tables a P (fst image) (snd image)
  = Some (symtab, strtab, indirect_symtab) ->
  In sect (rewritten_sections (fst image)) ->
  (i < slot_count a sect)%nat ->
  In (binding_ptr a sect (snd image) i,
      slot_rebinding a P rebs sect symtab strtab indirect_symtab i)
    (walk_jobs a P rebs image).
Proof.
  intros E Hs Hi. unfold walk_jobs. rewrite E.
  apply in_flat_map. exists sect. split; [assumption|].
  unfold section_jobs. apply in_map_iff. exists i.
  split; [reflexivity|]. apply in_seq. lia.
Qed.

(** C1.  For a pointer slot whose symbol name matches a registered
    rebinding, the turn of the loop for that slot does exactly what the
    first match [r] in search order asks: the registry is searched batch by
    batch from the head and each batch in array order, the rebindings after
    [r] play no part, and the slot ends holding the replacement of [r].
    A batch registered later is searched first: after a successful
    [prepend_rebindings] of [newer] in front of any registry [older], the
    slot receives the replacement of the first match of [newer], whatever
    rebindings of the same name [older] holds.

    The same holds of the whole pass, of the walk over an image and of a
    registration.  [perform_rebinding_with_section] stores the replacement
    of the first match into every slot of the section whose symbol
    matches, and the slot holds it after the pass when no out-location of
    the registry is a slot of the section.  After
    [rebind_symbols_for_image] every such slot of every rewritten section
    of the image holds the replacement of its first match, and after a
    successful [rebind_symbols] every such slot of every loaded image holds
    the replacement of its first match in the batch just registered,
    whatever the older batches hold; these two when each slot is visited
    with one rebinding only and no out-location is itself a visited
    slot. *)
Theorem C1_first_match_wins :
  (forall a P rebs section slide symtab strtab indirect_symtab m i pre r post,
      let symtab_index := symtab_index_of P section indirect_symtab i in
      let symbol_name := symbol_name_of a P symtab strtab symtab_index in
      let slot := binding_ptr a section slide i in
      let m' :=
        rebind_slot a P rebs section slide symtab strtab indirect_symtab m i in
      is_sentinel symtab_index = false ->
      search_order rebs = pre ++ r :: post ->
      Forall (fun r' => name_matches symbol_name r' = false) pre ->
      name_matches symbol_name r = true ->
      m' = rebind_binding slot r m
      /\ load slot m' = replacement r
      /\ exists capture,
           trace m' = EvStore slot (replacement r) :: capture ++ trace m
           /\ (capture = [] \/ capture = [EvStore (replaced r) (load slot m)]))
  /\
  (forall a P older newer nel h head' h' section slide symtab strtab
          indirect_symtab m i pre r post,
      let symtab_index := symtab_index_of P section indirect_symtab i in
      let symbol_name := symbol_name_of a P symtab strtab symtab_index in
      let slot := binding_ptr a section slide i in
      prepend_rebindings older newer nel h = (0, head', h') ->
      is_sentinel symtab_index = false ->
      take nel newer = pre ++ r :: post ->
      Forall (fun r' => name_matches symbol_name r' = false) pre ->
      name_matches symbol_name r = true ->
      search_order head' = take nel newer ++ search_order older
      /\ load slot
           (rebind_slot a P head' section slide symtab strtab indirect_symtab m i)
         = replacement r)
  /\
  (forall a P rebs section slide symtab strtab indirect_symtab m i pre r post,
      let symtab_index := symtab_index_of P section indirect_symtab i in
      let symbol_name := symbol_name_of a P symtab strtab symtab_index in
      let slot := binding_ptr a section slide i in
      let m' :=
        perform_rebinding_with_section a P rebs section slide symtab strtab
          indirect_symtab m in
      (i < slot_count a section)%nat ->
      is_sentinel symtab_index = false ->
      search_order rebs = pre ++ r :: post ->
      Forall (fun r' => name_matches symbol_name r' = false) pre ->
      name_matches symbol_name r = true ->
      (exists evs,
          trace m' = evs ++ trace m
          /\ In (EvStore slot (replacement r)) evs)
      /\ ((forall j r', (j < slot_count a section)%nat ->
                        In r' (search_order rebs) ->
                        replaced r' <> binding_ptr a section slide j) ->
          load slot m' = replacement r))
  /\
  (forall a P rebs image symtab strtab indirect_symtab m section i pre r post,
      let symtab_index := symtab_index_of P section indirect_symtab i in
      let symbol_name := symbol_name_of a P symtab strtab symtab_index in
      let slot := binding_ptr a section (snd image) i in
      image_tables a P (fst image) (snd image)
      = Some (symtab, strtab, indirect_symtab) ->
      In section (rewritten_sections (fst image)) ->
      (i < slot_count a section)%nat ->
      is_sentinel symtab_index = false ->
      search_order rebs = pre ++ r :: post ->
      Forall (fun r' => name_matches symbol_name r' = false) pre ->
      name_matches symbol_name r = true ->
      coherent (walk_jobs a P rebs image) ->
      no_alias (walk_jobs a P rebs image) ->
      load slot (rebind_symbols_for_image a P rebs (fst image) (snd image) m)
      = replacement r)
  /\
  (forall a P newer nel s image symtab strtab indirect_symtab section i
          pre r post,
      let symtab_index := symtab_index_of P section indirect_symtab i in
      let symbol_name := symbol_name_of a P symtab strtab symtab_index in
      let slot := binding_ptr a section (snd image) i in
      let result := rebind_symbols a P newer nel s in
      let jobs :=
        flat_map (walk_jobs a P (_rebindings_head (snd result))) (images s) in
      fst result = 0 ->
      In image (images s) ->
      image_tables a P (fst image) (snd image)
      = Some (symtab, strtab, indirect_symtab) ->
      In section (rewritten_sections (fst image)) ->
      (i < slot_count a section)%nat ->
      is_sentinel symtab_index = false ->
      take nel newer = pre ++ r :: post ->
      Forall (fun r' => name_matches symbol_name r' = false) pre ->
      name_matches symbol_name r = true ->
      coherent jobs -> no_alias jobs ->
      load slot (mem (snd result)) = replacement r).
Proof.
  assert (Hslot : forall a P rebs section slide symtab strtab indirect_symtab m i r,
             is_sentinel (symtab_index_of P section indirect_symtab i) = false ->
             first_match
               (symbol_name_of a P symtab strtab
                  (symtab_index_of P section indirect_symtab i)) rebs = Some r ->
             rebind_slot a P rebs section slide symtab strtab indirect_symtab m i
             = rebind_binding (binding_ptr a section slide i) r m).
  { intros * Hs Hf. rewrite rebind_slot_spec. unfold slot_rebinding.
    now rewrite Hs, Hf. }
  split; [|split; [|split; [|split]]].
  - intros * Hs Hsplit Hpre Hr.
    assert (E : m' = rebind_binding slot r m).
    { apply Hslot; [assumption|]. eapply first_match_decomposed; eassumption. }
    rewrite E. split; [reflexivity|]. split; [apply load_rebind_binding_eq|].
    rewrite trace_rebind_binding.
    destruct (captures slot r m); eauto.
  - intros * Hprep Hs Hsplit Hpre Hr.
    destruct (prepend_rebindings_ok _ _ _ _ _ _ Hprep) as (p & q & -> & _ & _).
    split; [reflexivity|].
    rewrite (Hslot _ _ _ _ _ _ _ _ _ _ r); [apply load_rebind_binding_eq|assumption|].
    apply (first_match_decomposed _ _ pre r (post ++ search_order older));
      [|assumption..].
    rewrite search_order_cons; simpl. rewrite Hsplit.
    now rewrite <- app_assoc.
  - intros * Hi Hs Hsplit Hpre Hr.
    assert (Hreb : slot_rebinding a P rebs section symtab strtab indirect_symtab i
                   = Some r)
      by (eapply slot_rebinding_decomposed; eassumption).
    split.
    + now apply perform_stores.
    + intros Halias. apply perform_rebinds; assumption.
  - intros * Ht Hsect Hi Hs Hsplit Hpre Hr Hco Hna.
    rewrite walk_jobs_spec. apply jobs_rebind; [assumption..|].
    rewrite <- (slot_rebinding_decomposed a P rebs section symtab strtab
                  indirect_symtab i pre r post Hs Hsplit Hpre Hr).
    now apply walk_jobs_complete.
  - intros * Hok Himg Ht Hsect Hi Hs Hsplit Hpre Hr Hco Hna.
    unfold jobs, result in *. clear jobs result.
    destruct (rebind_symbols a P newer nel s) as [retval s1] eqn:E.
    simpl in *. subst retval.
    apply rebind_symbols_ok_inv in E as ((e & Eh & Er) & _ & Em).
    rewrite Em, walks_jobs. apply jobs_rebind; [assumption..|].
    apply in_flat_map. exists image. split; [assumption|].
    rewrite <- (slot_rebinding_decomposed a P (_rebindings_head s1) section
                  symtab strtab indirect_symtab i pre r
                  (post ++ search_order (_rebindings_head s)) Hs).
    + now apply walk_jobs_complete.
    + rewrite Eh, search_order_cons, Er, Hsplit. now rewrite <- app_assoc.
    + assumption.
    + assumption.
Qed.

(** A worked instance: in the demo image the first slot of [__got] and the
    second slot of [__la_symbol_ptr] are bound to [_close]; with [batch2]
    registered after [batch1], the first receives the replacement of
    [batch2] in its turn of the loop, and the second holds it after the
    pass over [__la_symbol_ptr], after the walk over the image and after
    [hook_close2] is registered in a process that holds [batch1]. *)
Lemma C1_first_match_wins_witness :
  load (binding_ptr LP64 Demo.got Demo.slide 0)
    (rebind_slot LP64 Demo.os [Demo.batch2; Demo.batch1] Demo.got Demo.slide
       Demo.symtab Demo.strtab Demo.indirect_symtab Demo.boot 0)
  = Demo.my_close2
  /\ load (binding_ptr LP64 Demo.got Demo.slide 0)
       (rebind_slot LP64 Demo.os
          (snd (fst (prepend_rebindings [Demo.batch1] [Demo.hook_close2] 1
                       {| live := ∅; results := [0x600040; 0x600060] |})))
          Demo.got Demo.slide Demo.symtab Demo.strtab Demo.indirect_symtab
          Demo.boot 0)
     = Demo.my_close2
  /\ load (binding_ptr LP64 Demo.la_symbol_ptr Demo.slide 1)
       (perform_rebinding_with_section LP64 Demo.os [Demo.batch2; Demo.batch1]
          Demo.la_symbol_ptr Demo.slide Demo.symtab Demo.strtab
          Demo.indirect_symtab Demo.boot)
     = Demo.my_close2
  /\ load (binding_ptr LP64 Demo.la_symbol_ptr Demo.slide 1)
       (rebind_symbols_for_image LP64 Demo.os [Demo.batch2; Demo.batch1]
          Demo.header Demo.slide Demo.boot)
     = Demo.my_close2
  /\ load (binding_ptr LP64 Demo.la_symbol_ptr Demo.slide 1)
       (mem (snd (rebind_symbols LP64 Demo.os [Demo.hook_close2] 1
                    (Demo.process1 [0x600040; 0x600060]))))
     = Demo.my_close2.
Proof.
  destruct C1_first_match_wins as (H1 & H2 & H3 & H4 & H5).
  split; [|split; [|split; [|split]]].
  - refine (proj1 (proj2
      (H1 LP64 Demo.os [Demo.batch2; Demo.batch1] Demo.got Demo.slide
          Demo.symtab Demo.strtab Demo.indirect_symtab Demo.boot 0%nat
          [] Demo.hook_close2 [Demo.hook_open; Demo.hook_close] _ _ _ _))).
    + vm_compute; reflexivity.
    + reflexivity.
    + constructor.
    + vm_compute; reflexivity.
  - refine (proj2
      (H2 LP64 Demo.os [Demo.batch1] [Demo.hook_close2] 1%nat
          {| live := ∅; results := [0x600040; 0x600060] |}
          _ {| live := {[0x600060]} ∪ ({[0x600040]} ∪ ∅); results := [] |}
          Demo.got Demo.slide Demo.symtab Demo.strtab Demo.indirect_symtab
          Demo.boot 0%nat [] Demo.hook_close2 [] _ _ _ _ _)).
    + reflexivity.
    + vm_compute; reflexivity.
    + reflexivity.
    + constructor.
    + vm_compute; reflexivity.
  - refine (proj2
      (H3 LP64 Demo.os [Demo.batch2; Demo.batch1] Demo.la_symbol_ptr
          Demo.slide Demo.symtab Demo.strtab Demo.indirect_symtab Demo.boot
          1%nat
          [] Demo.hook_close2 [Demo.hook_open; Demo.hook_close] _ _ _ _ _) _).
    + vm_compute; first [reflexivity | lia].
    + vm_compute; first [reflexivity | lia].
    + reflexivity.
    + constructor.
    + vm_compute; first [reflexivity | lia].
    + intros j r' Hj [<-|[<-|[<-|[]]]]; vm_compute in Hj;
        (destruct j as [|[|j]]; [vm_compute; discriminate ..|lia]).
  - refine (H4 LP64 Demo.os [Demo.batch2; Demo.batch1]
              (Demo.header, Demo.slide) Demo.symtab Demo.strtab
              Demo.indirect_symtab Demo.boot Demo.la_symbol_ptr 1%nat
              [] Demo.hook_close2 [Demo.hook_open; Demo.hook_close]
              _ _ _ _ _ _ _ _ _).
    + vm_compute; first [reflexivity | lia].
    + right; left; reflexivity.
    + vm_compute; first [reflexivity | lia].
    + vm_compute; first [reflexivity | lia].
    + reflexivity.
    + constructor.
    + vm_compute; first [reflexivity | lia].
    + apply walk_jobs_coherent.
      intros sect sect' i j [<-|[<-|[]]] [<-|[<-|[]]] Hi Hj;
        vm_compute in Hi, Hj;
        (destruct i as [|[|i]]; [| |lia]);
        (destruct j as [|[|j]]; [| |lia]);
        vm_compute; intros E; try discriminate E; auto.
    + apply walk_jobs_no_alias.
      intros sect i r [<-|[<-|[]]] Hi [<-|[<-|[<-|[]]]]; vm_compute in Hi;
        (destruct i as [|[|i]]; [vm_compute; discriminate ..|lia]).
  - refine (H5 LP64 Demo.os [Demo.hook_close2] 1%nat
              (Demo.process1 [0x600040; 0x600060])
              (Demo.header, Demo.slide) Demo.symtab Demo.strtab
              Demo.indirect_symtab Demo.la_symbol_ptr 1%nat [] Demo.hook_close2 []
              _ _ _ _ _ _ _ _ _ _ _).
    + vm_compute; first [reflexivity | lia].
    + left; reflexivity.
    + vm_compute; first [reflexivity | lia].
    + right; left; reflexivity.
    + vm_compute; first [reflexivity | lia].
    + vm_compute; first [reflexivity | lia].
    + reflexivity.
    + constructor.
    + vm_compute; first [reflexivity | lia].
    + intros p o o' J1 J2. vm_compute in J1, J2.
      destruct J1 as [J1|[J1|[J1|[J1|[]]]]];
        destruct J2 as [J2|[J2|[J2|[J2|[]]]]];
        congruence.
    + intros p r p' o' J1 J2. vm_compute in J1, J2.
      destruct J1 as [J1|[J1|[J1|[J1|[]]]]];
        destruct J2 as [J2|[J2|[J2|[J2|[]]]]];
        try discriminate J1;
        injection J1 as <- <-; injection J2 as <- <-; vm_compute; discriminate.
Defined.

(** * Further properties of the code *)

(** ** The two copies of the walker *)

(** X4.  The second copy of the walker, which tests the section type in one
    [if], leaves the same memory and the same trace as the first copy with
    its two tests: the two tests never both hold, so neither copy rewrites
    a section twice. *)
Theorem merged_walker_agrees a P rebs header slide m :
  rebind_symbols_for_image_merged a P rebs header slide m
  = rebind_symbols_for_image a P rebs header slide m.
Proof.
  assert (Hsect : forall symtab strtab indirect_symtab m0 sect,
            rebind_section_merged a P rebs slide symtab strtab indirect_symtab
              m0 sect
            = rebind_section a P rebs slide symtab strtab indirect_symtab
                m0 sect).
  { intros. now rewrite rebind_section_spec. }
  assert (Hcmd : forall symtab strtab indirect_symtab m0 lc,
            rebind_command_merged a P rebs slide symtab strtab indirect_symtab
              m0 lc
            = rebind_command a P rebs slide symtab strtab indirect_symtab
                m0 lc).
  { intros symtab strtab indirect_symtab m0 [seg| | |]; try reflexivity. simpl.
    destruct (_ && _); [reflexivity|].
    apply fold_left_pointwise. intros. apply Hsect. }
  unfold rebind_symbols_for_image_merged, rebind_symbols_for_image.
  destruct (negb _); [reflexivity|]. cbv zeta.
  generalize (fold_left find_command (commands header) no_commands).
  intros found.
  destruct (symtab_cmd found) as [st|], (dysymtab_cmd found) as [dst|],
           (linkedit_segment found) as [linkedit|]; try reflexivity.
  destruct (nindirectsyms dst =? 0); [reflexivity|].
  apply fold_left_pointwise. intros. apply Hcmd.
Qed.

(** ** Batches that hold no match *)

Lemma rebind_in_entry_none symbol_name binding rs m :
  (forall r, In r rs -> name_matches symbol_name r = false) ->
  rebind_in_entry symbol_name binding rs m = None.
Proof.
  induction rs as [|r rs IH]; intros H; simpl; [reflexivity|].
  rewrite H by (simpl; auto). apply IH. intros; apply H; simpl; auto.
Qed.

(** X5.  A batch none of whose names matches the symbol of a slot is passed
    over: the turn for the slot does what it would do with the older
    batches alone.  Registering rebindings for other symbols does not
    disturb the rebindings registered before. *)
Theorem unmatched_batch_passed_over a P e older section slide symtab strtab
    indirect_symtab m i :
  let symbol_name :=
    symbol_name_of a P symtab strtab
      (symtab_index_of P section indirect_symtab i) in
  (forall r, In r (rebindings e) -> name_matches symbol_name r = false) ->
  rebind_slot a P (e :: older) section slide symtab strtab indirect_symtab m i
  = rebind_slot a P older section slide symtab strtab indirect_symtab m i.
Proof.
  intros symbol_name H. unfold rebind_slot.
  destruct (is_sentinel _); [reflexivity|]. simpl.
  fold symbol_name. now rewrite rebind_in_entry_none.
Qed.

(** A worked instance: [batch2] names [close] only, so the first lazy
    pointer of the demo image, bound to [_open], is rebound by [batch1]
    behind it. *)
Lemma unmatched_batch_passed_over_witness :
  load 0x100009000
    (rebind_slot LP64 Demo.os [Demo.batch2; Demo.batch1] Demo.la_symbol_ptr
       Demo.slide Demo.symtab Demo.strtab Demo.indirect_symtab Demo.boot 0)
  = Demo.my_open.
Proof.
  rewrite (unmatched_batch_passed_over LP64 Demo.os Demo.batch2 [Demo.batch1]
             Demo.la_symbol_ptr Demo.slide Demo.symtab Demo.strtab
             Demo.indirect_symtab Demo.boot 0).
  - vm_compute; reflexivity.
  - intros r [<-|[]]. vm_compute; reflexivity.
Defined.

(** ** The first byte of a symbol name *)

(** X6.  The code skips the first byte of a symbol name without looking at
    what it is, as long as it is not NUL: two symbol names that differ in
    their first byte only match the same rebindings.  A leading byte other
    than the underscore is stripped all the same. *)
Theorem first_byte_not_compared c c' rest r :
  uchar c <> 0 -> uchar c' <> 0 ->
  name_matches (String c rest) r = name_matches (String c' rest) r.
Proof.
  intros Hc Hc'. unfold name_matches, symbol_name_longer_than_1, byte_at.
  simpl. destruct (Z.eqb_spec (uchar c) 0); [contradiction|].
  destruct (Z.eqb_spec (uchar c') 0); [contradiction|]. reflexivity.
Qed.

(** A worked instance: [hook_close] matches [xclose] as it matches
    [_close]. *)
Lemma first_byte_not_compared_witness :
  name_matches "xclose" Demo.hook_close = name_matches "_close" Demo.hook_close.
Proof.
  apply first_byte_not_compared; vm_compute; discriminate.
Defined.

(** ** The count given with the rebindings *)

(** X7.  Only the first [rebindings_nel] rebindings of the caller's array are
    registered: both entry points return the same value and leave the same
    process as when called with the array cut to that length; with a count
    of zero they register an empty batch. *)
Theorem rebindings_past_count_ignored a P header slide rebs rebindings_nel s :
  rebind_symbols a P rebs rebindings_nel s
  = rebind_symbols a P (take rebindings_nel rebs) rebindings_nel s
  /\ rebind_symbols_image a P header slide rebs rebindings_nel s
     = rebind_symbols_image a P header slide (take rebindings_nel rebs)
         rebindings_nel s
  /\ rebind_symbols a P rebs 0 s = rebind_symbols a P [] 0 s.
Proof.
  assert (H : forall head n h,
            prepend_rebindings head (take n rebs) n h
            = prepend_rebindings head rebs n h).
  { intros head n h. unfold prepend_rebindings. now rewrite take_take, Nat.min_id. }
  unfold rebind_symbols, rebind_symbols_image. rewrite !H.
  repeat split; reflexivity.
Qed.

(** ** What a walk leaves alone *)

Lemma load_rebind_binding_other binding r m p :
  p <> binding -> replaced r = NULL \/ p <> replaced r ->
  load p (rebind_binding binding r m) = load p m.
Proof.
  intros H1 H2. unfold rebind_binding.
  rewrite load_store_ne by congruence.
  destruct (Z.eqb_spec (replaced r) NULL) as [E|E]; simpl; [reflexivity|].
  destruct (negb _); [|reflexivity].
  rewrite load_store_ne; [reflexivity|]. destruct H2; congruence.
Qed.

Lemma jobs_frame jobs m p :
  (forall q r, In (q, Some r) jobs ->
               p <> q /\ (replaced r = NULL \/ p <> replaced r)) ->
  load p (fold_left apply_job jobs m) = load p m.
Proof.
  revert m. induction jobs as [|[q o] jobs IH]; intros m H; simpl;
    [reflexivity|].
  rewrite IH by (intros; apply H; simpl; auto).
  unfold apply_job; simpl. destruct o as [r|]; [|reflexivity].
  destruct (H q r) as [H1 H2]; [simpl; auto|].
  now apply load_rebind_binding_other.
Qed.

(** The jobs of an image name slots of its rewritten sections and
    rebindings of the registry. *)
Lemma walk_jobs_sound a P rebs image q r :
  In (q, Some r) (walk_jobs a P rebs image) ->
  (exists sect i,
      In sect (rewritten_sections (fst image))
      /\ (i < slot_count a sect)%nat
      /\ q = binding_ptr a sect (snd image) i)
  /\ In r (search_order rebs).
Proof.
  intros H.
  apply in_walk_jobs in H as (st & str & ist & sect & i & _ & Hs & Hi & -> & Hr).
  split; [eauto|]. eapply slot_rebinding_In. symmetry. exact Hr.
Qed.

Lemma load_walk_frame a P rebs image m p :
  (forall sect i,
      In sect (rewritten_sections (fst image)) ->
      (i < slot_count a sect)%nat ->
      p <> binding_ptr a sect (snd image) i) ->
  (forall r, In r (search_order rebs) ->
             replaced r = NULL \/ p <> replaced r) ->
  load p (rebind_symbols_for_image a P rebs (fst image) (snd image) m)
  = load p m.
Proof.
  intros Hslots Hout. rewrite walk_jobs_spec. apply jobs_frame.
  intros q r H. apply walk_jobs_sound in H as [(sect & i & Hs & Hi & ->) Hr].
  auto.
Qed.

Lemma load_walks_frame a P rebs imgs m p :
  (forall image sect i,
      In image imgs ->
      In sect (rewritten_sections (fst image)) ->
      (i < slot_count a sect)%nat ->
      p <> binding_ptr a sect (snd image) i) ->
  (forall r, In r (search_order rebs) ->
             replaced r = NULL \/ p <> replaced r) ->
  load p
    (fold_left
       (fun m image =>
          rebind_symbols_for_image a P rebs (fst image) (snd image) m) imgs m)
  = load p m.
Proof.
  intros Hslots Hout. revert m.
  induction imgs as [|image imgs IH]; intros m; simpl; [reflexivity|].
  rewrite IH by (intros; eapply Hslots; simpl; eauto).
  apply load_walk_frame; [|assumption].
  intros. apply (Hslots image); simpl; auto.
Qed.

(** ** The events of a walk *)

Lemma walk_events a P rebs header slide m :
  exists evs,
    trace (rebind_symbols_for_image a P rebs header slide m) = evs ++ trace m
    /\ Forall (walk_event a rebs (rewritten_sections header) slide) evs.
Proof.
  rewrite rebind_symbols_for_image_spec.
  destruct (image_tables a P header slide) as [[[symtab strtab] indirect_symtab]|].
  - apply trace_sections.
  - exists []. split; [reflexivity|constructor].
Qed.

(** X8.  When every registered rebinding has a null out-location, a walk
    stores into pointer slots of rewritten sections and nowhere else: each
    store of its trace is to such a slot, and every other cell keeps its
    value, whatever the addresses involved. *)
Theorem null_out_locations_store_to_slots_only a P rebs header slide m :
  let m' := rebind_symbols_for_image a P rebs header slide m in
  (forall r, In r (search_order rebs) -> replaced r = NULL) ->
  (exists evs,
      trace m' = evs ++ trace m
      /\ forall p v, In (EvStore p v) evs ->
           exists sect i,
             In sect (rewritten_sections header)
             /\ (i < slot_count a sect)%nat
             /\ p = binding_ptr a sect slide i)
  /\ (forall p,
         (forall sect i,
             In sect (rewritten_sections header) ->
             (i < slot_count a sect)%nat ->
             p <> binding_ptr a sect slide i) ->
         load p m' = load p m).
Proof.
  intros m' Hnull. split.
  - destruct (walk_events a P rebs header slide m) as (evs & E & Hevs).
    exists evs. split; [exact E|].
    intros p v Hin. rewrite List.Forall_forall in Hevs.
    destruct (Hevs _ Hin) as [H|(r & Hr & Hn & _)]; [exact H|].
    now rewrite Hnull in Hn.
  - intros p Hslots.
    apply (load_walk_frame a P rebs (header, slide) m p); [assumption|].
    intros r Hr. left. now apply Hnull.
Qed.

(** A worked instance: [batch2] holds one rebinding, without out-location;
    after the walk of the demo image with it the cell of [orig_close] is
    still [0]. *)
Lemma null_out_locations_store_to_slots_only_witness :
  load 0x200000
    (rebind_symbols_for_image LP64 Demo.os [Demo.batch2] Demo.header Demo.slide
       Demo.boot) = 0.
Proof.
  assert (Hnull : forall r, In r (search_order [Demo.batch2]) ->
                            replaced r = NULL).
  { intros r [<-|[]]. reflexivity. }
  rewrite (proj2 (null_out_locations_store_to_slots_only LP64 Demo.os
                    [Demo.batch2] Demo.header Demo.slide Demo.boot Hnull)).
  - reflexivity.
  - intros sect i [<-|[<-|[]]] Hi; vm_compute in Hi;
      (destruct i as [|[|i]]; [vm_compute; discriminate ..| lia]).
Defined.

(** X9.  A walk calls [mprotect] only for rewritten sections whose own
    segment name is [__DATA_CONST]: over an image with no such section its
    trace grows by stores alone. *)
Theorem no_mprotect_without_data_const a P rebs header slide m :
  (forall sect, In sect (rewritten_sections header) ->
                cstr (sect_segname sect) <> "__DATA_CONST"%string) ->
  exists evs,
    trace (rebind_symbols_for_image a P rebs header slide m) = evs ++ trace m
    /\ Forall (fun e => exists p v, e = EvStore p v) evs.
Proof.
  intros H. destruct (walk_events a P rebs header slide m) as (evs & E & Hevs).
  exists evs. split; [exact E|].
  eapply Forall_impl; [exact Hevs|].
  intros [p v|p len prot] He; [eauto|].
  destruct He as (sect & Hs & Hc & _). now apply H in Hs.
Qed.

(** A worked instance: the image without a [__DATA_CONST] segment; the walk
    with [batch1] leaves two stores for each of its two lazy pointers. *)
Lemma no_mprotect_without_data_const_witness :
  exists evs,
    trace (rebind_symbols_for_image LP64 Demo.os [Demo.batch1]
             Demo.plain_header Demo.slide Demo.boot) = evs ++ []
    /\ Forall (fun e => exists p v, e = EvStore p v) evs.
Proof.
  apply (no_mprotect_without_data_const LP64 Demo.os [Demo.batch1]
           Demo.plain_header Demo.slide Demo.boot).
  intros sect [<-|[]]. vm_compute. discriminate.
Defined.

(** ** The entry points, case by case *)

Lemma rebind_symbols_outcome a P rebs rebindings_nel s :
  let node := fst (malloc (allocator s)) in
  let vector := fst (malloc (snd (malloc (allocator s)))) in
  let result := rebind_symbols a P rebs rebindings_nel s in
  let s' := snd result in
  (fst result = -1 /\ (node = NULL \/ vector = NULL)
   /\ _rebindings_head s' = _rebindings_head s /\ mem s' = mem s
   /\ images s' = images s /\ add_image_funcs s' = add_image_funcs s
   /\ live (allocator s') =
      if node =? NULL then live (allocator s)
      else ({[node]} ∪ live (allocator s)) ∖ {[node]})
  \/ (fst result = 0 /\ node <> NULL /\ vector <> NULL
      /\ _rebindings_head s' =
         {| entry_ptr := node; rebindings_ptr := vector;
            rebindings := take rebindings_nel rebs |} :: _rebindings_head s
      /\ mem s' =
         fold_left
           (fun m image =>
              rebind_symbols_for_image a P (_rebindings_head s')
                (fst image) (snd image) m)
           (images s) (mem s)
      /\ images s' = images s
      /\ add_image_funcs s' =
         match _rebindings_head s with
         | [] => S (add_image_funcs s)
         | _ :: _ => add_image_funcs s
         end
      /\ live (allocator s') = {[vector]} ∪ ({[node]} ∪ live (allocator s))).
Proof.
  intros node vector result s'. unfold s', result, rebind_symbols.
  pose proof (prepend_rebindings_cases (_rebindings_head s) rebs rebindings_nel
                (allocator s)) as H.
  simpl in H. fold node vector in H.
  destruct (prepend_rebindings (_rebindings_head s) rebs rebindings_nel
              (allocator s)) as [[r head'] h1].
  simpl in H.
  destruct H as [(Hn & -> & -> & Hl)|[(Hn & Hv & -> & -> & Hl)
                                     |(Hn & Hv & -> & -> & Hl)]]; simpl.
  - left. destruct (Z.eqb_spec node NULL); [|contradiction].
    repeat split; auto.
  - left. destruct (Z.eqb_spec node NULL); [contradiction|].
    repeat split; auto.
  - right.
    destruct (_rebindings_head s) as [|e older] eqn:Eh;
      unfold _dyld_register_func_for_add_image; rewrite callbacks_spec; simpl;
      repeat split; auto.
Qed.

Lemma rebind_symbols_image_outcome a P header slide rebs rebindings_nel s :
  let node := fst (malloc (allocator s)) in
  let vector := fst (malloc (snd (malloc (allocator s)))) in
  let result := rebind_symbols_image a P header slide rebs rebindings_nel s in
  let s' := snd result in
  _rebindings_head s' = _rebindings_head s
  /\ images s' = images s
  /\ add_image_funcs s' = add_image_funcs s
  /\ ((fst result = -1 /\ (node = NULL \/ vector = NULL)
       /\ mem s' = rebind_symbols_for_image a P [] header slide (mem s)
       /\ live (allocator s') =
          if node =? NULL then live (allocator s)
          else ({[node]} ∪ live (allocator s)) ∖ {[node]})
      \/ (fst result = 0 /\ node <> NULL /\ vector <> NULL
          /\ mem s' =
             rebind_symbols_for_image a P
               [{| entry_ptr := node; rebindings_ptr := vector;
                   rebindings := take rebindings_nel rebs |}]
               header slide (mem s)
          /\ live (allocator s') =
             (({[vector]} ∪ ({[node]} ∪ live (allocator s))) ∖ {[vector]})
             ∖ {[node]})).
Proof.
  intros node vector result s'. unfold s', result, rebind_symbols_image.
  pose proof (prepend_rebindings_cases [] rebs rebindings_nel (allocator s)) as H.
  simpl in H. fold node vector in H.
  destruct (prepend_rebindings [] rebs rebindings_nel (allocator s))
    as [[r head'] h1].
  simpl in H.
  destruct H as [(Hn & -> & -> & Hl)|[(Hn & Hv & -> & -> & Hl)
                                     |(Hn & Hv & -> & -> & Hl)]]; simpl.
  - repeat split. left. destruct (Z.eqb_spec node NULL); [|contradiction].
    rewrite free_NULL. repeat split; auto.
  - repeat split. left. destruct (Z.eqb_spec node NULL); [contradiction|].
    rewrite free_NULL. repeat split; auto.
  - repeat split. right. unfold free.
    destruct (Z.eqb_spec vector NULL); [contradiction|].
    destruct (Z.eqb_spec node NULL); [contradiction|]. simpl.
    rewrite Hl. repeat split; auto.
Qed.

(** ** The add-image callback *)

(** X10.  The callback is registered with the loader once, by the first
    successful registration, and never again: a process in which the
    callback is registered exactly when the registry holds a node stays so
    under [rebind_symbols], [rebind_symbols_image] and the loading of an
    image. *)
Theorem callback_registered_once a P s :
  callback_matches_registry s ->
  (forall rebs rebindings_nel,
      callback_matches_registry (snd (rebind_symbols a P rebs rebindings_nel s)))
  /\ (forall header slide rebs rebindings_nel,
         callback_matches_registry
           (snd (rebind_symbols_image a P header slide rebs rebindings_nel s)))
  /\ (forall image, callback_matches_registry (dyld_add_image a P image s)).
Proof.
  unfold callback_matches_registry. intros Hinv. repeat split.
  - intros rebs n.
    destruct (rebind_symbols_outcome a P rebs n s)
      as [(_ & _ & Hh & _ & _ & Hf & _)|(_ & _ & _ & Hh & _ & _ & Hf & _)];
      rewrite Hh, Hf; [exact Hinv|].
    rewrite Hinv. now destruct (_rebindings_head s).
  - intros header slide rebs n.
    destruct (rebind_symbols_image_outcome a P header slide rebs n s)
      as (Hh & _ & Hf & _). rewrite Hh, Hf. exact Hinv.
  - intros image. unfold dyld_add_image. rewrite Hinv.
    destruct (_rebindings_head s) eqn:E; simpl; rewrite ?E; reflexivity.
Qed.

(** A worked instance: the demo process starts with no node and no
    callback; after a registration the callback is registered once. *)
Lemma callback_registered_once_witness :
  callback_matches_registry
    (snd (rebind_symbols LP64 Demo.os [Demo.hook_close] 1
            (Demo.process0 [0x600000; 0x600020]))).
Proof.
  apply (callback_registered_once LP64 Demo.os
           (Demo.process0 [0x600000; 0x600020])).
  reflexivity.
Defined.

(** X11.  An image loaded after the registrations is walked by the callback
    exactly once, with the whole registry as it stands at that moment; as
    long as nothing was registered it is not walked at all. *)
Theorem later_image_walked_once a P image s :
  callback_matches_registry s ->
  mem (dyld_add_image a P image s) =
  match _rebindings_head s with
  | [] => mem s
  | _ :: _ =>
      rebind_symbols_for_image a P (_rebindings_head s) (fst image) (snd image)
        (mem s)
  end
  /\ images (dyld_add_image a P image s) = images s ++ [image]
  /\ _rebindings_head (dyld_add_image a P image s) = _rebindings_head s.
Proof.
  unfold callback_matches_registry, dyld_add_image. intros ->.
  destruct (_rebindings_head s) eqn:E; simpl; rewrite ?E; repeat split.
Qed.

(** A worked instance: [hook_close] is registered while no image is loaded;
    the demo image loaded afterwards has its first pointer rebound. *)
Lemma later_image_walked_once_witness :
  load 0x100005000
    (mem (dyld_add_image LP64 Demo.os (Demo.header, Demo.slide)
            {| mem := Demo.boot;
               allocator := {| live := ∅; results := [] |};
               _rebindings_head := [Demo.batch1];
               images := [];
               add_image_funcs := 1 |}))
  = Demo.my_close.
Proof.
  rewrite (proj1 (later_image_walked_once LP64 Demo.os (Demo.header, Demo.slide)
                    {| mem := Demo.boot;
                       allocator := {| live := ∅; results := [] |};
                       _rebindings_head := [Demo.batch1];
                       images := [];
                       add_image_funcs := 1 |} eq_refl)).
  vm_compute; reflexivity.
Defined.

(** ** The blocks of the registry *)

(** X12.  The nodes of the global registry are never freed.  When [malloc]
    hands out blocks that are not live, a process whose registry nodes and
    vectors are allocated stays so under [rebind_symbols] and
    [rebind_symbols_image]; a failed [rebind_symbols] and every
    [rebind_symbols_image] leave the set of live blocks as it was, so the
    node allocated before a failed vector allocation does not leak. *)
Theorem registry_stays_allocated a P s :
  let node := fst (malloc (allocator s)) in
  let vector := fst (malloc (snd (malloc (allocator s)))) in
  registry_allocated s ->
  (node ∉ live (allocator s)) -> (vector ∉ live (allocator s)) ->
  (forall rebs rebindings_nel,
      let result := rebind_symbols a P rebs rebindings_nel s in
      registry_allocated (snd result)
      /\ (fst result < 0 ->
          live (allocator (snd result)) = live (allocator s)))
  /\ (forall header slide rebs rebindings_nel,
         let result :=
           rebind_symbols_image a P header slide rebs rebindings_nel s in
         registry_allocated (snd result)
         /\ live (allocator (snd result)) = live (allocator s)).
Proof.
  intros node vector Hinv Hn Hv.
  assert (Hfail : (if node =? NULL then live (allocator s)
                   else ({[node]} ∪ live (allocator s)) ∖ {[node]})
                  = live (allocator s)).
  { destruct (node =? NULL); [reflexivity|]. now apply release_fresh. }
  unfold registry_allocated in *. split.
  - intros rebs n.
    destruct (rebind_symbols_outcome a P rebs n s)
      as [(Hr & _ & Hh & _ & _ & _ & Hl)|(Hr & _ & _ & Hh & _ & _ & _ & Hl)];
      fold node vector in Hl, Hh; rewrite Hh, Hl, Hr.
    + rewrite Hfail. split; [exact Hinv|reflexivity].
    + split; [|lia]. intros e [<-|He]; simpl.
      * split; [apply elem_of_union_r, elem_of_union_l|apply elem_of_union_l];
          now apply elem_of_singleton.
      * destruct (Hinv e He).
        split; apply elem_of_union_r, elem_of_union_r; assumption.
  - intros header slide rebs n.
    destruct (rebind_symbols_image_outcome a P header slide rebs n s)
      as (Hh & _ & _ & [(_ & _ & _ & Hl)|(_ & _ & _ & _ & Hl)]);
      fold node vector in Hl; rewrite Hh, Hl.
    + rewrite Hfail. split; [exact Hinv|reflexivity].
    + rewrite release_fresh_pair by assumption. split; [exact Hinv|reflexivity].
Qed.

(** A worked instance: the demo process with one node registered and the
    next allocation of a vector failing; the registered node is still
    allocated and the new node is not left behind. *)
Lemma registry_stays_allocated_witness :
  live (allocator
          (snd (rebind_symbols LP64 Demo.os [Demo.hook_close2] 1
                  (Demo.process1 [0x600040; 0]))))
  = {[0x600000; 0x600020]}.
Proof.
  destruct (registry_stays_allocated LP64 Demo.os (Demo.process1 [0x600040; 0]))
    as [H _].
  - intros e [<-|[]]. split; vm_compute; reflexivity.
  - vm_compute. intros E; discriminate E.
  - vm_compute. intros E; discriminate E.
  - apply (proj2 (H [Demo.hook_close2] 1%nat)). vm_compute; reflexivity.
Defined.

(** ** What the entry points leave alone *)

(** X13.  [rebind_symbols_image] touches the given image only: a cell that
    is neither a pointer slot of a rewritten section of that image nor the
    non-null out-location of one of the first [rebindings_nel] rebindings
    given keeps its value.  The slots of other images and the out-locations
    of the global registry are such cells. *)
Theorem local_rebinding_frame a P header slide rebs rebindings_nel s p :
  (forall sect i,
      In sect (rewritten_sections header) ->
      (i < slot_count a sect)%nat -> p <> binding_ptr a sect slide i) ->
  (forall r, In r (take rebindings_nel rebs) ->
             replaced r = NULL \/ p <> replaced r) ->
  load p (mem (snd (rebind_symbols_image a P header slide rebs rebindings_nel s)))
  = load p (mem s).
Proof.
  intros Hslots Hout.
  destruct (rebind_symbols_image_outcome a P header slide rebs rebindings_nel s)
    as (_ & _ & _ & [(_ & _ & -> & _)|(_ & _ & _ & -> & _)]);
    apply (load_walk_frame a P _ (header, slide)); try assumption.
  - intros r [].
  - intros r Hr. apply Hout. unfold search_order in Hr. simpl in Hr.
    now rewrite app_nil_r in Hr.
Qed.

(** A worked instance: a local rebinding of [close] on the demo image
    leaves the out-location [orig_open] as it was. *)
Lemma local_rebinding_frame_witness :
  load 0x200008
    (mem (snd (rebind_symbols_image LP64 Demo.os Demo.header Demo.slide
                 [Demo.hook_close] 1 (Demo.process0 [0x600000; 0x600020]))))
  = 0.
Proof.
  rewrite (local_rebinding_frame LP64 Demo.os Demo.header Demo.slide
             [Demo.hook_close] 1 (Demo.process0 [0x600000; 0x600020])
             0x200008).
  - reflexivity.
  - intros sect i [<-|[<-|[]]] Hi; vm_compute in Hi;
      (destruct i as [|[|i]]; [vm_compute; discriminate ..| lia]).
  - intros r [<-|[]]. right. vm_compute. discriminate.
Defined.

(** X14.  [rebind_symbols] changes pointer slots of rewritten sections of
    the loaded images and out-locations of the registry, old batches
    included, and nothing else: any other cell keeps its value. *)
Theorem global_rebinding_frame a P rebs rebindings_nel s p :
  (forall image sect i,
      In image (images s) ->
      In sect (rewritten_sections (fst image)) ->
      (i < slot_count a sect)%nat ->
      p <> binding_ptr a sect (snd image) i) ->
  (forall r, In r (take rebindings_nel rebs ++ search_order (_rebindings_head s)) ->
             replaced r = NULL \/ p <> replaced r) ->
  load p (mem (snd (rebind_symbols a P rebs rebindings_nel s))) = load p (mem s).
Proof.
  intros Hslots Hout.
  destruct (rebind_symbols_outcome a P rebs rebindings_nel s)
    as [(_ & _ & _ & -> & _)|(_ & _ & _ & Hh & -> & _)]; [reflexivity|].
  apply load_walks_frame; [assumption|].
  rewrite Hh. exact Hout.
Qed.

(** A worked instance: registering [hook_close] in the demo process leaves
    the cell of the plain [__data] section as it was. *)
Lemma global_rebinding_frame_witness :
  load 0x100009010
    (mem (snd (rebind_symbols LP64 Demo.os [Demo.hook_close] 1
                 (Demo.process0 [0x600000; 0x600020]))))
  = 42.
Proof.
  rewrite (global_rebinding_frame LP64 Demo.os [Demo.hook_close] 1
             (Demo.process0 [0x600000; 0x600020]) 0x100009010).
  - reflexivity.
  - intros image sect i [<-|[]] [<-|[<-|[]]] Hi; vm_compute in Hi;
      (destruct i as [|[|i]]; [vm_compute; discriminate ..| lia]).
  - intros r [<-|[]]. right. vm_compute. discriminate.
Defined.

(** ** Names that match nothing *)

Lemma perform_unmatched a P rebs section slide symtab strtab indirect_symtab m :
  (forall i, (i < slot_count a section)%nat ->
             slot_rebinding a P rebs section symtab strtab indirect_symtab i
             = None) ->
  let m' :=
    perform_rebinding_with_section a P rebs section slide symtab strtab
      indirect_symtab m in
  cells m' = cells m
  /\ exists evs,
       trace m' = evs ++ trace m
       /\ Forall (fun e => exists p len prot, e = EvMprotect p len prot) evs.
Proof.
  intros Hnone m'. unfold m', perform_rebinding_with_section.
  assert (Hpass : forall l m0,
            (forall i, In i l -> (i < slot_count a section)%nat) ->
            fold_left
              (rebind_slot a P rebs section slide symtab strtab indirect_symtab)
              l m0 = m0).
  { induction l as [|i l IH]; intros m0 Hl; simpl; [reflexivity|].
    rewrite rebind_slot_spec, Hnone by (apply Hl; simpl; auto).
    apply IH. intros; apply Hl; simpl; auto. }
  rewrite Hpass by (intros i Hi; apply in_seq in Hi; lia).
  destruct (strcmp (sect_segname section) SEG_DATA_CONST =? 0); simpl.
  - split; [reflexivity|]. eexists [_; _]. split; [reflexivity|].
    repeat constructor; eauto.
  - split; [reflexivity|]. exists []. split; [reflexivity|constructor].
Qed.

Lemma walk_unmatched a P rebs image m :
  (forall p o, In (p, o) (walk_jobs a P rebs image) -> o = None) ->
  let m' := rebind_symbols_for_image a P rebs (fst image) (snd image) m in
  cells m' = cells m
  /\ exists evs,
       trace m' = evs ++ trace m
       /\ Forall (fun e => exists p len prot, e = EvMprotect p len prot) evs.
Proof.
  intros Hnone m'. unfold m'. clear m'.
  rewrite rebind_symbols_for_image_spec. unfold walk_jobs in Hnone.
  destruct (image_tables a P (fst image) (snd image))
    as [[[symtab strtab] indirect_symtab]|];
    [|split; [reflexivity|]; exists []; split; [reflexivity|constructor]].
  revert Hnone. generalize (rewritten_sections (fst image)) as sects.
  intros sects. revert m.
  induction sects as [|sect sects IH]; intros m Hnone; simpl.
  - split; [reflexivity|]. exists []. split; [reflexivity|constructor].
  - destruct (IH (perform_rebinding_with_section a P rebs sect (snd image)
                    symtab strtab indirect_symtab m))
      as (-> & evs2 & -> & H2).
    { intros p o Hin. apply (Hnone p). simpl. apply in_or_app. now right. }
    destruct (perform_unmatched a P rebs sect (snd image) symtab strtab
                indirect_symtab m) as (-> & evs1 & -> & H1).
    { intros i Hi. apply (Hnone (binding_ptr a sect (snd image) i)).
      simpl. apply in_or_app. left. unfold section_jobs.
      apply in_map_iff. exists i. split; [reflexivity|]. apply in_seq. lia. }
    split; [reflexivity|]. exists (evs2 ++ evs1).
    split; [now rewrite app_assoc|]. now apply Forall_app.
Qed.

(** X15.  When no pointer slot of any loaded image has a symbol that
    matches a rebinding of the registry as [rebind_symbols] leaves it, the
    call changes no cell: no slot is rewritten and no out-location is
    written; the only events are the [mprotect] calls around the sections
    of [__DATA_CONST].  So registering names that no loaded image imports
    is silent. *)
Theorem unknown_symbols_change_nothing a P rebs rebindings_nel s :
  let s' := snd (rebind_symbols a P rebs rebindings_nel s) in
  (forall image p o,
      In image (images s) ->
      In (p, o) (walk_jobs a P (_rebindings_head s') image) -> o = None) ->
  cells (mem s') = cells (mem s)
  /\ exists evs,
       trace (mem s') = evs ++ trace (mem s)
       /\ Forall (fun e => exists p len prot, e = EvMprotect p len prot) evs.
Proof.
  intros s' Hnone. unfold s' in *. clear s'.
  destruct (rebind_symbols_outcome a P rebs rebindings_nel s)
    as [(_ & _ & _ & -> & _)|(_ & _ & _ & _ & -> & _)].
  - split; [reflexivity|]. exists []. split; [reflexivity|constructor].
  - revert Hnone.
    generalize (_rebindings_head (snd (rebind_symbols a P rebs rebindings_nel s)))
      as head'.
    intros head'. generalize (mem s) as m. generalize (images s) as imgs.
    induction imgs as [|image imgs IH]; intros m Hnone; simpl.
    + split; [reflexivity|]. exists []. split; [reflexivity|constructor].
    + destruct (IH (rebind_symbols_for_image a P head' (fst image) (snd image) m))
        as (-> & evs2 & -> & H2).
      { intros image' p o Hin. apply Hnone. simpl; auto. }
      destruct (walk_unmatched a P head' image m) as (-> & evs1 & -> & H1).
      { intros p o. apply Hnone. simpl; auto. }
      split; [reflexivity|]. exists (evs2 ++ evs1).
      split; [now rewrite app_assoc|]. now apply Forall_app.
Qed.

(** A worked instance: registering [read], which the demo image does not
    import, leaves every cell of the demo process as it was. *)
Lemma unknown_symbols_change_nothing_witness :
  cells (mem (snd (rebind_symbols LP64 Demo.os
                     [{| name := "read"; replacement := Demo.my_open;
                         replaced := 0x200008 |}] 1
                     (Demo.process0 [0x600000; 0x600020]))))
  = cells Demo.boot.
Proof.
  apply (unknown_symbols_change_nothing LP64 Demo.os
           [{| name := "read"; replacement := Demo.my_open;
               replaced := 0x200008 |}] 1
           (Demo.process0 [0x600000; 0x600020])).
  intros image p o [<-|[]] Hin. vm_compute in Hin.
  repeat (destruct Hin as [Hin|Hin]; [now inversion Hin|]).
  destruct Hin.
Defined.

(** ** A sequence of registrations *)

Lemma rebind_symbols_all_snoc a P batches batch s :
  rebind_symbols_all a P (batches ++ [batch]) s
  = let acc := rebind_symbols_all a P batches s in
    let r := rebind_symbols a P (fst batch) (snd batch) (snd acc) in
    (fst acc ++ [fst r], snd r).
Proof.
  unfold rebind_symbols_all. rewrite fold_left_app. simpl.
  destruct (rebind_symbols a P (fst batch) (snd batch) _). reflexivity.
Qed.

(** X16.  Registrations compose: after a sequence of calls of
    [rebind_symbols] that all returned 0, a symbol is looked up first in the
    batch of the last call, then in the one before, and so on back to the
    registry the sequence started from; within a batch the order given is
    kept and only the first [rebindings_nel] elements count. *)
Theorem registrations_search_newest_first a P batches s :
  Forall (fun retval => retval = 0) (fst (rebind_symbols_all a P batches s)) ->
  search_order (_rebindings_head (snd (rebind_symbols_all a P batches s)))
  = concat (rev (map (fun batch => take (snd batch) (fst batch)) batches))
    ++ search_order (_rebindings_head s).
Proof.
  induction batches as [|batch batches IH] using rev_ind; intros Hok.
  - reflexivity.
  - rewrite rebind_symbols_all_snoc in *. cbv zeta in *. simpl in Hok.
    apply Forall_app in Hok. destruct Hok as [Hok Hlast].
    apply Forall_cons_1 in Hlast. destruct Hlast as [Hlast _].
    simpl.
    destruct (rebind_symbols_outcome a P (fst batch) (snd batch)
                (snd (rebind_symbols_all a P batches s)))
      as [(Hr & _)|(_ & _ & _ & Hh & _)].
    + rewrite Hr in Hlast. discriminate Hlast.
    + rewrite Hh.
      change (take (snd batch) (fst batch)
                ++ search_order
                     (_rebindings_head (snd (rebind_symbols_all a P batches s)))
              = concat
                  (rev (map (fun batch => take (snd batch) (fst batch))
                          (batches ++ [batch])))
                ++ search_order (_rebindings_head s)).
      rewrite IH by exact Hok.
      rewrite map_app, rev_app_distr. simpl. now rewrite app_assoc.
Qed.

(** A worked instance: after [batch1] and then [hook_close2] are registered
    in the demo process, [close] is looked up in [hook_close2] first. *)
Lemma registrations_search_newest_first_witness :
  search_order
    (_rebindings_head
       (snd (rebind_symbols_all LP64 Demo.os
               [([Demo.hook_open; Demo.hook_close], 2%nat);
                ([Demo.hook_close2], 1%nat)]
               (Demo.process0 [0x600000; 0x600020; 0x600040; 0x600060]))))
  = [Demo.hook_close2; Demo.hook_open; Demo.hook_close].
Proof.
  rewrite (registrations_search_newest_first LP64 Demo.os
             [([Demo.hook_open; Demo.hook_close], 2%nat);
              ([Demo.hook_close2], 1%nat)]
             (Demo.process0 [0x600000; 0x600020; 0x600040; 0x600060])).
  - reflexivity.
  - vm_compute. repeat constructor.
Defined.
